(** * Ad Ops Command Center, React client: state synchronisation core

    The generator script [generate_phase1.py] emits the TypeScript sources
    of the client.  This development embeds the emitted modules that hold
    state:

    - [src/api/client.ts] and [src/types/common.ts]  (module [Client]),
    - [src/hooks/useSSE.ts]                          (module [SSE]),
    - [src/stores/ui.ts], [components/feedback/Toast.tsx] (module [UI]),
    - [src/stores/preferences.ts]                    (module [Prefs]).

    JavaScript values that reach these modules are JSON-shaped, objects are
    finite maps from property names to values.  What the engine and the
    libraries provide ([JSON.parse], [JSON.stringify], [fetch],
    [crypto.randomUUID], the hash of a query key) is a parameter of the
    embedded functions; module [JSONText] and module [Demo] give concrete
    instances for the worked examples at the end. *)

From stdpp Require Import gmap strings list fin_maps pretty.
From Stdlib Require Import ZArith Lia Ascii.

(** ** JSON values *)

(** The result of [JSON.parse] / [res.json()].  Numbers are carried
    opaquely by the code below (never inspected arithmetically, only tested
    for truthiness), integers stand for them. *)
#[warnings="-register-all"]
Inductive JSON : Type :=
  | JNull : JSON
  | JBool (b : bool) : JSON
  | JNum (n : Z) : JSON
  | JStr (s : string) : JSON
  | JArr (items : list JSON) : JSON
  | JObj (fields : gmap string JSON) : JSON.

(** ** The fragment of JavaScript the hooks use *)

Module JS.

(** [v || w] keeps [v] exactly when [v] is truthy. *)
Definition truthy (v : JSON) : bool :=
  match v with
  | JNull => false
  | JBool b => b
  | JNum n => negb (n =? 0)%Z
  | JStr s => negb (String.eqb s "")
  | JArr _ => true
  | JObj _ => true
  end.

(** Own enumerable properties of an indexed value: ["0"], ["1"], ... *)
Definition index_props {A} (l : list A) : gmap string A :=
  list_to_map (imap (λ i x, (pretty i, x)) l).

Definition chars (s : string) : list JSON :=
  (λ c, JStr (String c EmptyString)) <$> String.list_ascii_of_string s.

(** The properties copied by object spread [{...v}]: the own enumerable
    properties of [v]; primitives other than strings have none. *)
Definition spread (v : JSON) : gmap string JSON :=
  match v with
  | JObj fields => fields
  | JArr items => index_props items
  | JStr s => index_props (chars s)
  | JNull | JBool _ | JNum _ => ∅
  end.

(** Exceptions raised by the fragment. *)
Inductive Exn : Type :=
  | SyntaxError   (* JSON.parse on text that is not JSON *)
  | TypeError.    (* property read on null *)

(** The property read [data.id]; [None] is [undefined].  Reading a
    property of [null] throws; an object answers with its own property;
    arrays, strings, numbers and booleans have no [id]. *)
Definition read_id (data : JSON) : Exn + option JSON :=
  match data with
  | JNull => inl TypeError
  | JObj fields => inr (fields !! "id")
  | JBool _ | JNum _ | JStr _ | JArr _ => inr None
  end.

End JS.

(** ** JSON text

    [JSON.parse] and [JSON.stringify] are parameters of the embedded
    functions.  This module is a decoder and an encoder for the JSON text
    whose numbers are integers and whose strings have no escapes; the
    worked examples run the embedded functions on real frames with it. *)

Module JSONText.

Definition dq : ascii := "034"%char.
Definition backslash : ascii := "092"%char.

Definition quote (s : string) : string :=
  String dq (s +:+ String dq EmptyString).

Fixpoint stringify (v : JSON) : string :=
  match v with
  | JNull => "null"
  | JBool b => if b then "true" else "false"
  | JNum n => pretty n
  | JStr s => quote s
  | JArr items => "[" +:+ String.concat "," (stringify <$> items) +:+ "]"
  | JObj fields =>
      "{" +:+ String.concat ","
                (map_fold (λ k x acc, (quote k +:+ ":" +:+ stringify x) :: acc)
                   [] fields) +:+ "}"
  end.

Definition is_ws (c : ascii) : bool :=
  let n := nat_of_ascii c in
  (n =? 32) || (n =? 9) || (n =? 10) || (n =? 13).

Fixpoint skip_ws (cs : list ascii) : list ascii :=
  match cs with
  | c :: r => if is_ws c then skip_ws r else cs
  | [] => []
  end.

Definition is_digit (c : ascii) : bool :=
  let n := nat_of_ascii c in (48 <=? n) && (n <=? 57).

Fixpoint read_digits (cs : list ascii) (acc : Z) : Z * list ascii :=
  match cs with
  | c :: r =>
      if is_digit c
      then read_digits r (10 * acc + Z.of_nat (nat_of_ascii c - 48))
      else (acc, cs)
  | [] => (acc, [])
  end.

(** An integer literal: no leading zero before another digit. *)
Definition read_int (cs : list ascii) : option (Z * list ascii) :=
  match cs with
  | c :: r =>
      if negb (is_digit c) then None
      else
        match r with
        | c' :: _ =>
            if Ascii.eqb c "0" && is_digit c' then None
            else Some (read_digits cs 0)
        | [] => Some (read_digits cs 0)
        end
  | [] => None
  end.

Definition read_number (cs : list ascii) : option (Z * list ascii) :=
  match cs with
  | c :: r =>
      if Ascii.eqb c "-"
      then prod_map Z.opp id <$> read_int r
      else read_int cs
  | [] => None
  end.

(** The characters of a string literal up to the closing quote. *)
Fixpoint read_string (cs : list ascii) : option (string * list ascii) :=
  match cs with
  | [] => None
  | c :: r =>
      if Ascii.eqb c dq then Some (EmptyString, r)
      else if Ascii.eqb c backslash || (nat_of_ascii c <? 32) then None
      else prod_map (String c) id <$> read_string r
  end.

Fixpoint strip (word cs : list ascii) : option (list ascii) :=
  match word, cs with
  | [], _ => Some cs
  | a :: word', c :: cs' => if Ascii.eqb a c then strip word' cs' else None
  | _ :: _, [] => None
  end.

Definition literal (word : string) (v : JSON) (cs : list ascii)
    : option (JSON * list ascii) :=
  pair v <$> strip (String.list_ascii_of_string word) cs.

Fixpoint parse_value (fuel : nat) (cs : list ascii) {struct fuel}
    : option (JSON * list ascii) :=
  match fuel with
  | 0 => None
  | S fuel' =>
      match skip_ws cs with
      | [] => None
      | c :: r =>
          if Ascii.eqb c "n" then literal "null" JNull (c :: r)
          else if Ascii.eqb c "t" then literal "true" (JBool true) (c :: r)
          else if Ascii.eqb c "f" then literal "false" (JBool false) (c :: r)
          else if Ascii.eqb c dq then prod_map JStr id <$> read_string r
          else if Ascii.eqb c "[" then
            match skip_ws r with
            | c' :: r' =>
                if Ascii.eqb c' "]" then Some (JArr [], r')
                else parse_items fuel' r []
            | [] => None
            end
          else if Ascii.eqb c "{" then
            match skip_ws r with
            | c' :: r' =>
                if Ascii.eqb c' "}" then Some (JObj ∅, r')
                else parse_members fuel' r ∅
            | [] => None
            end
          else prod_map JNum id <$> read_number (c :: r)
      end
  end
with parse_items (fuel : nat) (cs : list ascii) (acc : list JSON) {struct fuel}
    : option (JSON * list ascii) :=
  match fuel with
  | 0 => None
  | S fuel' =>
      match parse_value fuel' cs with
      | Some (v, r) =>
          match skip_ws r with
          | c :: r' =>
              if Ascii.eqb c "," then parse_items fuel' r' (acc ++ [v])
              else if Ascii.eqb c "]" then Some (JArr (acc ++ [v]), r')
              else None
          | [] => None
          end
      | None => None
      end
  end
with parse_members (fuel : nat) (cs : list ascii) (acc : gmap string JSON)
    {struct fuel} : option (JSON * list ascii) :=
  match fuel with
  | 0 => None
  | S fuel' =>
      match skip_ws cs with
      | c :: r =>
          if negb (Ascii.eqb c dq) then None
          else
            match read_string r with
            | Some (k, r1) =>
                match skip_ws r1 with
                | c1 :: r2 =>
                    if negb (Ascii.eqb c1 ":") then None
                    else
                      match parse_value fuel' r2 with
                      | Some (v, r3) =>
                          match skip_ws r3 with
                          | c3 :: r4 =>
                              if Ascii.eqb c3 ","
                              then parse_members fuel' r4 (<[k:=v]> acc)
                              else if Ascii.eqb c3 "}"
                              then Some (JObj (<[k:=v]> acc), r4)
                              else None
                          | [] => None
                          end
                      | None => None
                      end
                | [] => None
                end
            | None => None
            end
      | [] => None
      end
  end.

Definition parse (s : string) : option JSON :=
  let cs := String.list_ascii_of_string s in
  match parse_value (2 * length cs + 2) cs with
  | Some (v, r) => match skip_ws r with [] => Some v | _ :: _ => None end
  | None => None
  end.
End JSONText.

(** ** src/types/common.ts and src/api/client.ts *)

Module Client.

(** The part of a fetch [Response] that [parse] reads: the status code
    and the text of the body. *)
Record Response : Type := { status : Z; text : string }.

(** [res.ok]: the status is in the range 200-299. *)
Definition ok (res : Response) : bool :=
  (200 <=? status res)%Z && (status res <=? 299)%Z.

(** [class ApiError extends Error { constructor(public status, message) }] *)
Record ApiError : Type := { err_status : Z; message : string }.

(** How the promise returned by [parse] settles. *)
Inductive Settled : Type :=
  | Fulfilled (payload : JSON)
  | RejectedApi (e : ApiError)
  | RejectedSyntax       (* res.json() on a body that is not JSON *)
  | RejectedNetwork.     (* fetch itself failed, no response *)

Record Request : Type :=
  { url : string; method : string; headers : list (string * string);
    req_body : option string }.

Definition API_BASE : string := "/api".

Section WithRuntime.
Context (JSON_parse : string → option JSON).
Context (JSON_stringify : JSON → string).
(** The network: [None] when no response arrives. *)
Context (fetch : Request → option Response).

(** [res.json()]: the body decoded as JSON. *)
Definition json (res : Response) : Settled :=
  match JSON_parse (text res) with
  | Some payload => Fulfilled payload
  | None => RejectedSyntax
  end.

(** [if (!res.ok) throw new ApiError(res.status, await res.text());
     return res.json();] *)
Definition parse (res : Response) : Settled :=
  if negb (ok res) then
    RejectedApi {| err_status := status res; message := text res |}
  else json res.

Definition await_parse (r : option Response) : Settled :=
  match r with
  | Some res => parse res
  | None => RejectedNetwork
  end.

Definition apiGet (path : string) : Settled :=
  await_parse (fetch {| url := API_BASE +:+ path; method := "GET";
                        headers := []; req_body := None |}).

Definition apiPost (path : string) (body : JSON) : Settled :=
  await_parse (fetch {| url := API_BASE +:+ path; method := "POST";
                        headers := [("Content-Type", "application/json")];
                        req_body := Some (JSON_stringify body) |}).

(** [src/api/analytics.ts] *)
Definition getDashboard : Settled := apiGet "/dashboard".
End WithRuntime.

End Client.

(** ** src/hooks/useSSE.ts *)

Module SSE.
Import JS.

(** A query key is an array of values; [None] is [undefined]. *)
Definition QueryKey : Type := list (option JSON).

(** [MessageEvent]: the event name of the frame and its payload text. *)
Record MessageEvent : Type := { type : string; data : string }.

Inductive ReadyState : Type := CONNECTING | OPEN | CLOSED.

(** [(old || {})] *)
Definition or_empty (old : option JSON) : JSON :=
  match old with
  | Some v => if truthy v then v else JObj ∅
  | None => JObj ∅
  end.

(** The updater [(old) => ({ ...(old || {}), ...data })]: later spreads
    overwrite earlier ones, property by property. *)
Definition updater (data : JSON) (old : option JSON) : JSON :=
  JObj (spread data ∪ spread (or_empty old)).

Section WithRuntime.
Context (JSON_parse : string → option JSON).
(** The query cache files data under the hash of the query key. *)
Context (hashKey : QueryKey → string).

(** Modelled from the spec: the data side of the query client.  The
    client itself is the query library's; [setQueryData key f] stores
    [f] applied to the data currently filed under [key], "value is
    created from patch alone if no entry exists yet". *)
Definition setQueryData (qc : gmap string JSON) (key : QueryKey)
    (f : option JSON → JSON) : gmap string JSON :=
  <[hashKey key := f (qc !! hashKey key)]> qc.

Definition getQueryData (qc : gmap string JSON) (key : QueryKey)
    : option JSON :=
  qc !! hashKey key.

(** [['workflows', data.id]] *)
Definition workflow_key (id : option JSON) : QueryKey :=
  [Some (JStr "workflows"); id].

(** The statement after the decode:
    [qc.setQueryData(['workflows', data.id], updater)].
    The arguments are evaluated first, so [data.id] on [null] throws
    before the cache is touched. *)
Definition workflow_update (data : JSON) (qc : gmap string JSON)
    : Exn + gmap string JSON :=
  match read_id data with
  | inl e => inl e
  | inr id => inr (setQueryData qc (workflow_key id) (updater data))
  end.

(** The listener registered for ['workflow_update']. *)
Definition listener (e : MessageEvent) (qc : gmap string JSON)
    : Exn + gmap string JSON :=
  match JSON_parse (data e) with
  | None => inl SyntaxError
  | Some d => workflow_update d qc
  end.

(** The bridge: the event source [es], the query client it writes to,
    and the exceptions the event loop has reported. *)
Record Bridge : Type :=
  { readyState : ReadyState;
    qc : gmap string JSON;
    reported : list Exn }.

(** Delivery of one frame by the event source.  Only the event name
    with a registered listener is handled; an exception thrown by a
    listener is reported by the event loop and ends that listener call
    only.  A closed source delivers nothing. *)
Definition dispatch (b : Bridge) (e : MessageEvent) : Bridge :=
  match readyState b with
  | CLOSED => b
  | _ =>
      if String.eqb (type e) "workflow_update" then
        match listener e (qc b) with
        | inr qc' =>
            {| readyState := readyState b; qc := qc';
               reported := reported b |}
        | inl ex =>
            {| readyState := readyState b; qc := qc b;
               reported := ex :: reported b |}
        end
      else b
  end.

(** Frames are delivered in arrival order. *)
Definition receive (frames : list MessageEvent) (b : Bridge) : Bridge :=
  foldl dispatch b frames.

(** The effect cleanup [() => es.close()]. *)
Definition close (b : Bridge) : Bridge :=
  {| readyState := CLOSED; qc := qc b; reported := reported b |}.

(** [new EventSource(url)] once the connection is established. *)
Definition useSSE (client : gmap string JSON) : Bridge :=
  {| readyState := OPEN; qc := client; reported := [] |}.
End WithRuntime.

(** A key hash for the worked examples: the text of the key as a JSON
    array, [undefined] entries written as [null]. *)
Definition text_hash (key : QueryKey) : string :=
  JSONText.stringify (JArr (default JNull <$> key)).

End SSE.

(** ** src/stores/ui.ts and src/components/feedback/Toast.tsx *)

Module UI.

Inductive ToastType : Type := info | success | error.

Record ToastItem : Type :=
  { id : string; message : string; type : ToastType }.

Record UIState : Type :=
  { sidebarCollapsed : bool; toasts : list ToastItem }.

(** [create<UIState>((set) => ({ sidebarCollapsed: false, toasts: [], ... }))] *)
Definition useUIStore : UIState :=
  {| sidebarCollapsed := false; toasts := [] |}.

Definition toggleSidebar (s : UIState) : UIState :=
  {| sidebarCollapsed := negb (sidebarCollapsed s); toasts := toasts s |}.

(** [addToast: (message, type = 'info') => set((s) => ({ toasts:
    [...s.toasts, { id: crypto.randomUUID(), message, type }] }))];
    [uuid] is the value [crypto.randomUUID()] returned, [None] an omitted
    [type]. *)
Definition addToast (uuid : string) (msg : string) (ty : option ToastType)
    (s : UIState) : UIState :=
  {| sidebarCollapsed := sidebarCollapsed s;
     toasts := toasts s ++
       [{| id := uuid; message := msg; type := default info ty |}] |}.

(** [toasts: s.toasts.filter((t) => t.id !== id)] *)
Definition removeToast (i : string) (s : UIState) : UIState :=
  {| sidebarCollapsed := sidebarCollapsed s;
     toasts := filter (λ t, id t ≠ i) (toasts s) |}.

Definition ids (s : UIState) : list string := id <$> toasts s.

(** A pending [setTimeout(() => removeToast(t.id), 5000)]: the instant it
    is due, in milliseconds, and the id its callback removes. *)
Record Timer : Type := { due : nat; target : string }.

Definition LIFETIME : nat := 5000.

(** The mounted application as the timer queue sees it: the clock in
    milliseconds, the store, the pending timers, and how many UUIDs have
    been drawn so far. *)
Record App : Type :=
  { now : nat; store : UIState; timers : list Timer; drawn : nat }.

(** What the user, a producer or the clock does next.  Each event is a
    task of its own: the store update it makes is rendered, and the effect
    run, before the next event. *)
Inductive Event : Type :=
  | Push (msg : string) (ty : option ToastType)   (* addToast(msg, ty) *)
  | Dismiss (i : string)                   (* removeToast(i) *)
  | Toggle                                 (* toggleSidebar() *)
  | Tick.                                  (* one millisecond passes *)

Section WithRuntime.
(** [crypto.randomUUID()]: the n-th draw. *)
Context (randomUUID : nat → string).

(** The effect of [Toast], run after a render in which [toasts] is a new
    array: [toasts.forEach((t) => setTimeout(() => removeToast(t.id), 5000))].
    It has no cleanup, earlier timers stay pending. *)
Definition effect (a : App) : App :=
  {| now := now a; store := store a;
     timers := timers a ++
       ((λ t, {| due := now a + LIFETIME; target := id t |})
          <$> toasts (store a));
     drawn := drawn a |}.

(** A store update that replaces [toasts], followed by the effect. *)
Definition update_toasts (f : UIState → UIState) (a : App) : App :=
  effect {| now := now a; store := f (store a);
            timers := timers a; drawn := drawn a |}.

(** A timer callback runs. *)
Definition fire (a : App) (t : Timer) : App :=
  update_toasts (removeToast (target t)) a.

(** The timers that are due leave the queue and run in queue order. *)
Definition run_due (a : App) : App :=
  foldl fire
    {| now := now a; store := store a;
       timers := filter (λ t, ¬ due t ≤ now a) (timers a);
       drawn := drawn a |}
    (filter (λ t, due t ≤ now a) (timers a)).

Definition step (a : App) (e : Event) : App :=
  match e with
  | Push msg ty =>
      update_toasts (addToast (randomUUID (drawn a)) msg ty)
        {| now := now a; store := store a; timers := timers a;
           drawn := S (drawn a) |}
  | Dismiss i => update_toasts (removeToast i) a
  | Toggle =>
      {| now := now a; store := toggleSidebar (store a);
         timers := timers a; drawn := drawn a |}
  | Tick =>
      run_due {| now := S (now a); store := store a;
                 timers := timers a; drawn := drawn a |}
  end.

Definition run (evs : list Event) (a : App) : App := foldl step a evs.

(** [<Toast />] mounted at instant [t0] over the fresh store: the first
    effect finds no toasts. *)
Definition mount (t0 : nat) : App :=
  effect {| now := t0; store := useUIStore; timers := []; drawn := 0 |}.

Definition dismisses (i : string) (e : Event) : bool :=
  match e with
  | Dismiss j => bool_decide (j = i)
  | _ => false
  end.

Definition present (i : string) (a : App) : bool :=
  bool_decide (i ∈ ids (store a)).

(** How many events of a run take the toast [i] out of the store. *)
Fixpoint removals (i : string) (evs : list Event) (a : App) : nat :=
  match evs with
  | [] => 0
  | e :: evs' =>
      (if present i a && negb (present i (step a e)) then 1 else 0)
      + removals i evs' (step a e)
  end.

(** Ids and timer targets come from draws already made. *)
Definition known (a : App) (i : string) : Prop :=
  ∃ n, n < drawn a ∧ i = randomUUID n.

Definition well_formed (a : App) : Prop :=
  (∀ i, i ∈ ids (store a) → known a i)
  ∧ (∀ t, t ∈ timers a → known a (target t)).

(** The toast with the [n]-th UUID was pushed at instant [T]: its first
    timer is pending until [T + LIFETIME], none of its timers is due
    earlier, and from that instant on it is gone. *)
Definition tracked (n T : nat) (a : App) : Prop :=
  T ≤ now a
  ∧ n < drawn a
  ∧ (∀ t, t ∈ timers a → target t = randomUUID n → T + LIFETIME ≤ due t)
  ∧ (now a < T + LIFETIME →
     {| due := T + LIFETIME; target := randomUUID n |} ∈ timers a)
  ∧ (T + LIFETIME ≤ now a → randomUUID n ∉ ids (store a)).
End WithRuntime.

End UI.

(** ** src/stores/preferences.ts *)

Module Prefs.

(** [d: 'compact' | 'comfortable'] *)
Inductive Density : Type := compact | comfortable.

Definition density_text (d : Density) : string :=
  match d with
  | compact => "compact"
  | comfortable => "comfortable"
  end.

(** The data properties of the state the creator returns:
    [{ theme: 'dark', tableDensity: 'comfortable', setDensity }]. *)
Definition defaults : gmap string JSON :=
  {[ "theme" := JStr "dark"; "tableDensity" := JStr "comfortable" ]}.

(** [{ name: 'adops-preferences' }] *)
Definition name : string := "adops-preferences".

(** The running store and the durable storage under it. *)
Record Process : Type :=
  { state : gmap string JSON; localStorage : gmap string string }.

Section WithRuntime.
Context (JSON_stringify : JSON → string).
Context (JSON_parse : string → option JSON).

(** Modelled from the spec: the [persist] middleware, which is the
    store library's.  The mapping is "written to stable local storage
    on every change": [set] merges the partial state into the state
    and then writes the serialised mapping to the named slot. *)
Definition set (partial : gmap string JSON) (p : Process) : Process :=
  let st := partial ∪ state p in
  {| state := st;
     localStorage := <[name := JSON_stringify (JObj st)]> (localStorage p) |}.

(** [setDensity: (d) => set({ tableDensity: d })] *)
Definition setDensity (d : Density) (p : Process) : Process :=
  set {[ "tableDensity" := JStr (density_text d) ]} p.

(** Modelled from the spec: the slot is "read once at process start to
    seed initial state"; "absent/corrupt stored data falls back to
    defaults", field by field. *)
Definition hydrate (storage : gmap string string) : gmap string JSON :=
  match storage !! name with
  | Some item =>
      match JSON_parse item with
      | Some (JObj persisted) => persisted ∪ defaults
      | _ => defaults
      end
  | None => defaults
  end.

(** Process start over a given durable storage. *)
Definition usePreferencesStore (storage : gmap string string) : Process :=
  {| state := hydrate storage; localStorage := storage |}.

(** The process ends, the storage stays, a new process starts. *)
Definition restart (p : Process) : Process :=
  usePreferencesStore (localStorage p).
End WithRuntime.

End Prefs.

(** ** Inputs of the worked examples *)

Module Demo.
Import SSE.

Definition running : gmap string JSON :=
  {[ "id" := JNum 7; "status" := JStr "running" ]}.

Definition progress : gmap string JSON :=
  {[ "id" := JNum 7; "progress" := JNum 40 ]}.

(** Three frames of one workflow: an update, a truncated payload, an
    update. *)
Definition frame1 : MessageEvent :=
  {| type := "workflow_update"; data := JSONText.stringify (JObj running) |}.

Definition frame2 : MessageEvent :=
  {| type := "workflow_update"; data := "{oops" |}.

Definition frame3 : MessageEvent :=
  {| type := "workflow_update"; data := JSONText.stringify (JObj progress) |}.

Definition heartbeat : MessageEvent :=
  {| type := "heartbeat"; data := "1" |}.

Definition null_frame : MessageEvent :=
  {| type := "workflow_update"; data := "null" |}.

(** A failed and a successful response of a pull endpoint. *)
Definition not_found : Client.Response :=
  {| Client.status := 404; Client.text := "no such campaign" |}.

Definition found : Client.Response :=
  {| Client.status := 200;
     Client.text := JSONText.stringify (JObj {[ "campaigns" := JArr [] ]}) |}.

(** The sequence of UUIDs in the examples: the decimal numerals. *)
Definition numeral (n : nat) : string := pretty n.

End Demo.

(** ** src/pages/Dashboard.tsx *)

Module Dashboard.
Import JS.

(** [v?.name] for a property name that no built-in prototype defines, as
    are all the names the page reads: [undefined] on [undefined] and
    [null], the own property on an object, [undefined] on every other
    value. *)
Definition optional (name : string) (v : option JSON) : option JSON :=
  match v with
  | Some (JObj fields) => fields !! name
  | _ => None
  end.

(** [v.name] for such a name: reading a property of [null] throws. *)
Definition member (name : string) (v : JSON) : Exn + option JSON :=
  match v with
  | JNull => inl TypeError
  | _ => inr (optional name (Some v))
  end.

(** [(v || [])] *)
Definition or_nil (v : option JSON) : JSON :=
  match v with
  | Some x => if truthy x then x else JArr []
  | None => JArr []
  end.

(** [(v || d)] *)
Definition or_else (v : option JSON) (d : JSON) : JSON :=
  match v with
  | Some x => if truthy x then x else d
  | None => d
  end.

(** [x.status === wanted] *)
Definition has_status (wanted : string) (x : JSON) : Exn + bool :=
  match member "status" x with
  | inl e => inl e
  | inr (Some (JStr s)) => inr (String.eqb s wanted)
  | inr _ => inr false
  end.

(** [items.filter(pred).length]: the callback runs on the items in order,
    the first exception ends the call. *)
Fixpoint count_where (pred : JSON → Exn + bool) (items : list JSON)
    : Exn + nat :=
  match items with
  | [] => inr 0
  | x :: rest =>
      match pred x with
      | inl e => inl e
      | inr keep =>
          match count_where pred rest with
          | inl e => inl e
          | inr n => inr (if keep then S n else n)
          end
      end
  end.

(** [v.filter(pred).length]: only an array has [filter]. *)
Definition filter_length (pred : JSON → Exn + bool) (v : JSON) : Exn + nat :=
  match v with
  | JArr items => count_where pred items
  | _ => inl TypeError
  end.

(** [(data?.campaigns || []).filter((c) => c.status === 'active').length] *)
Definition activeCampaigns (data : option JSON) : Exn + nat :=
  filter_length (has_status "active") (or_nil (optional "campaigns" data)).

(** [(data?.executions || []).filter((e) => e.status === 'completed').length] *)
Definition completed (data : option JSON) : Exn + nat :=
  filter_length (has_status "completed")
    (or_nil (optional "executions" data)).

(** A point of [SpendChart]: [{ name, value }]. *)
Record Point : Type := { name : JSON; value : JSON }.

(** [(p, i) => ({ name: p.dsp || `P${i+1}`, value: p.spent || 0 })] *)
Definition point (i : nat) (p : JSON) : Exn + Point :=
  match member "dsp" p with
  | inl e => inl e
  | inr dsp =>
      match member "spent" p with
      | inl e => inl e
      | inr spent =>
          inr {| name := or_else dsp (JStr ("P" +:+ pretty (S i)));
                 value := or_else spent (JNum 0) |}
      end
  end.

(** [rows.map(point)] from index [i] on. *)
Fixpoint map_points (i : nat) (rows : list JSON) : Exn + list Point :=
  match rows with
  | [] => inr []
  | p :: rest =>
      match point i p with
      | inl e => inl e
      | inr pt =>
          match map_points (S i) rest with
          | inl e => inl e
          | inr pts => inr (pt :: pts)
          end
      end
  end.

(** [(data?.pacing?.pacing || []).slice(0, 8).map(point)]: a value that
    is not an array has no [slice] or, a string, no [map]. *)
Definition chart (data : option JSON) : Exn + list Point :=
  match or_nil (optional "pacing" (optional "pacing" data)) with
  | JArr rows => map_points 0 (take 8 rows)
  | _ => inl TypeError
  end.

(** The test [c.status === wanted] on a value that is not [null]. *)
Definition status_is (wanted : string) (x : JSON) : bool :=
  match optional "status" (Some x) with
  | Some (JStr s) => String.eqb s wanted
  | _ => false
  end.

(** The value of [rate]: 0, or the quotient [(completed / total) * 100]
    of two counts, which the page evaluates in floating point. *)
Inductive Rate : Type :=
  | Zero
  | Percent (finished total : nat).

(** [(data?.executions?.length || 0)
       ? (completed / data.executions.length) * 100 : 0],
    evaluated after [completed].  A truthy value that is not an array has
    made [completed] throw; the values left beside the arrays are the falsy
    ones, which have no [length] or, the empty string, the length 0. *)
Definition rate (data : option JSON) : Exn + Rate :=
  match completed data with
  | inl e => inl e
  | inr finished =>
      match optional "executions" data with
      | Some (JArr items) =>
          inr (match length items with
               | 0 => Zero
               | S _ => Percent finished (length items)
               end)
      | _ => inr Zero
      end
  end.

End Dashboard.

(** ** Predicates on streams and on the timer queue *)

Module Stream.
Import SSE.

(** The frames that reach [setQueryData]: the event name has the listener
    and the payload decodes to a value other than [null]. *)
Definition effective (JSON_parse : string → option JSON) (e : MessageEvent)
    : bool :=
  String.eqb (type e) "workflow_update"
  && match JSON_parse (data e) with
     | None | Some JNull => false
     | Some _ => true
     end.

End Stream.

Module Queue.
Import UI.

(** No pending timer is overdue or further away than one lifetime, and
    every toast in the store is the target of a pending timer. *)
Definition timely (a : App) : Prop :=
  (∀ t, t ∈ timers a → now a < due t ≤ now a + LIFETIME)
  ∧ (∀ i, i ∈ ids (store a) → ∃ t, t ∈ timers a ∧ target t = i).

Definition is_push (e : Event) : Prop := ∃ msg ty, e = Push msg ty.

(** Every toast in the store has a pending timer due by [deadline]. *)
Definition covered (deadline : nat) (a : App) : Prop :=
  ∀ i, i ∈ ids (store a) →
    ∃ t, t ∈ timers a ∧ target t = i ∧ now a < due t ≤ deadline.

End Queue.

(** ** What [Toast] renders *)

Module ToastView.

(** [toasts.map((t) => <div key={t.id} ...>{t.message}</div>)]: the key
    and the text of each child, in order. *)
Definition children (s : UI.UIState) : list (string * string) :=
  (λ t, (UI.id t, UI.message t)) <$> UI.toasts s.

End ToastView.

(** ** The page body of src/pages/Dashboard.tsx *)

Module Page.
Import JS Dashboard.

(** Whether a value decoded from JSON converts to a primitive, as [+] and
    [<] ask of their operands.  An object converts through the inherited
    [toString] unless it has an own property [toString], which coming from
    JSON is not a function; an array converts through [join], which
    converts its items. *)
Fixpoint convertible (v : JSON) : bool :=
  match v with
  | JObj fields =>
      match fields !! "toString" with
      | None => true
      | Some _ => false
      end
  | JArr items => forallb convertible items
  | JNull | JBool _ | JNum _ | JStr _ => true
  end.

Definition to_primitive (v : JSON) : Exn + unit :=
  if convertible v then inr () else inl TypeError.

(** [(acc, p) => acc + (p.spent || 0)] as far as exceptions go: the read
    of [p.spent] and the conversion of the operand; [acc] is a number or
    a string. *)
Definition add_spent (p : JSON) : Exn + unit :=
  match member "spent" p with
  | inl e => inl e
  | inr spent => to_primitive (or_else spent (JNum 0))
  end.

(** [(p) => p.pacingPercent < 85 || p.pacingPercent > 115] as far as
    exceptions go: the read of [p.pacingPercent] and its conversion. *)
Definition out_of_pace (p : JSON) : Exn + unit :=
  match member "pacingPercent" p with
  | inl e => inl e
  | inr (Some percent) => to_primitive percent
  | inr None => inr ()
  end.

(** The callback runs on the rows in order, the first exception ends the
    call. *)
Fixpoint for_each (callback : JSON → Exn + unit) (rows : list JSON)
    : Exn + unit :=
  match rows with
  | [] => inr ()
  | p :: rest =>
      match callback p with
      | inl e => inl e
      | inr _ => for_each callback rest
      end
  end.

(** [v.reduce(callback, 0)] or [v.filter(callback)] as far as exceptions
    go: only an array has these methods. *)
Definition each_row (callback : JSON → Exn + unit) (v : JSON) : Exn + unit :=
  match v with
  | JArr rows => for_each callback rows
  | _ => inl TypeError
  end.

(** [(data?.pacing?.pacing || [])] *)
Definition pacing (data : option JSON) : JSON :=
  or_nil (optional "pacing" (optional "pacing" data)).

(** The [data] prop of [SpendChart] as the page computes it, once the
    guards [isLoading] and [error] are passed: [activeCampaigns],
    [totalSpend], [completed] and [rate] are evaluated first, then the
    alerts card, then the chart rows; the first exception ends the
    render. *)
Definition spend_chart (data : option JSON) : Exn + list Point :=
  match activeCampaigns data with
  | inl e => inl e
  | inr _ =>
      match each_row add_spent (pacing data) with
      | inl e => inl e
      | inr _ =>
          match rate data with
          | inl e => inl e
          | inr _ =>
              match each_row out_of_pace (pacing data) with
              | inl e => inl e
              | inr _ => chart data
              end
          end
      end
  end.

(** A row the total and the alerts card can read. *)
Definition readable (p : JSON) : Prop :=
  add_spent p = inr () ∧ out_of_pace p = inr ().

End Page.

(** ** Pushes rendered together *)

Module Batch.
Import UI.

(** [addToast] called for each of [pushes] in turn, the UUID draws
    starting at the [n]-th. *)
Fixpoint add_all (randomUUID : nat → string) (n : nat)
    (pushes : list (string * option ToastType)) (s : UIState) : UIState :=
  match pushes with
  | [] => s
  | (msg, ty) :: rest =>
      add_all randomUUID (S n) rest (addToast (randomUUID n) msg ty s)
  end.

(** Store updates made within one task are rendered together: all the
    pushes reach the store, then [Toast] renders once and its effect runs
    once.  A task that pushes nothing renders nothing. *)
Definition push_batch (randomUUID : nat → string)
    (pushes : list (string * option ToastType)) (a : App) : App :=
  match pushes with
  | [] => a
  | _ :: _ =>
      effect {| now := now a;
                store := add_all randomUUID (drawn a) pushes (store a);
                timers := timers a;
                drawn := drawn a + length pushes |}
  end.

(** The same pushes as events, each a task of its own. *)
Definition as_events (pushes : list (string * option ToastType))
    : list Event :=
  (λ p, Push p.1 p.2) <$> pushes.

End Batch.

(** ** The request cache *)

Module RequestCache.

(** Modelled from the spec: the request cache behind [useQuery], which is
    the query library's and not in the source; section 3 gives
    [CacheEntry] its fields and the five values of [status]. *)
Inductive Status : Type := idle | fetching | fresh | stale | error.

#[export] Instance Status_eq_dec : EqDecision Status.
Proof. solve_decision. Defined.

Record CacheEntry : Type :=
  { value : option JSON;
    status : Status;
    lastFetchedAt : option nat;
    failure : option string }.

(** A loader invocation that has not settled yet, and the handle callers
    of [fetch] hold on it. *)
Record Operation : Type := { handle : nat; op_key : string }.

(** The entries, the operations in flight, the keys the loader was invoked
    for so far (in order), and the next free handle. *)
Record Cache : Type :=
  { entries : gmap string CacheEntry;
    in_flight : list Operation;
    loader_calls : list string;
    next_handle : nat }.

Definition empty : Cache :=
  {| entries := ∅; in_flight := []; loader_calls := []; next_handle := 0 |}.

(** Modelled from the spec: [get(key)] "never blocks; returns current
    entry (possibly idle)"; a key never seen has the idle entry with no
    value. *)
Definition get (k : string) (c : Cache) : CacheEntry :=
  default {| value := None; status := idle; lastFetchedAt := None;
             failure := None |}
          (entries c !! k).

Definition operations_of (k : string) (c : Cache) : list Operation :=
  filter (λ o, op_key o = k) (in_flight c).

(** How many loader invocations for [k] are in flight. *)
Definition running (k : string) (c : Cache) : nat :=
  length (operations_of k c).

(** The first operation of a key leaves the list. *)
Fixpoint remove_first (k : string) (ops : list Operation) : list Operation :=
  match ops with
  | [] => []
  | o :: rest =>
      if decide (op_key o = k) then rest else o :: remove_first k rest
  end.

(** Modelled from the spec: [fetch(key, loader)], "if entry is fetching,
    returns a handle to the same in-flight operation (no duplicate
    invocation of loader); otherwise invokes loader, marks entry
    fetching".  The check and the update are one step.  The result is the
    cache and the handle returned. *)
Definition fetch (k : string) (c : Cache) : Cache * option nat :=
  match status (get k c) with
  | fetching => (c, handle <$> head (operations_of k c))
  | _ =>
      ({| entries :=
            <[k := {| value := value (get k c); status := fetching;
                      lastFetchedAt := lastFetchedAt (get k c);
                      failure := failure (get k c) |}]> (entries c);
          in_flight :=
            in_flight c ++ [{| handle := next_handle c; op_key := k |}];
          loader_calls := loader_calls c ++ [k];
          next_handle := S (next_handle c) |},
       Some (next_handle c))
  end.

Inductive Outcome : Type :=
  | Loaded (result : JSON)
  | Failed (detail : string).

(** Modelled from the spec: completion of the loader, "on completion sets
    status=fresh, value=result, lastFetchedAt=now, or on failure sets
    status=error, preserves previous value (stale-while-error), and
    records error"; [error] is "cleared on next successful fetch".  One
    operation of the key settles; with none in flight nothing happens. *)
Definition settle (k : string) (out : Outcome) (now : nat) (c : Cache)
    : Cache :=
  match head (operations_of k c) with
  | None => c
  | Some _ =>
      {| entries :=
           <[k := match out with
                  | Loaded v =>
                      {| value := Some v; status := fresh;
                         lastFetchedAt := Some now; failure := None |}
                  | Failed detail =>
                      {| value := value (get k c); status := error;
                         lastFetchedAt := lastFetchedAt (get k c);
                         failure := Some detail |}
                  end]> (entries c);
         in_flight := remove_first k (in_flight c);
         loader_calls := loader_calls c;
         next_handle := next_handle c |}
  end.

(** Modelled from the spec: the shallow merge of a patch, "fields present
    in patch replace corresponding fields in value; fields absent in patch
    are preserved; value is created from patch alone if no entry exists
    yet". *)
Definition mergePatch (old : option JSON) (patch : gmap string JSON) : JSON :=
  JObj (patch ∪ match old with
                | Some (JObj fields) => fields
                | _ => ∅
                end).

(** Modelled from the spec: [applyDelta(event)] "does not change status or
    lastFetchedAt"; "a delta for a key with no existing entry creates one
    with status=fresh and value=patch". *)
Definition applyDelta (k : string) (patch : gmap string JSON) (c : Cache)
    : Cache :=
  {| entries :=
       <[k := match entries c !! k with
              | Some e =>
                  {| value := Some (mergePatch (value e) patch);
                     status := status e;
                     lastFetchedAt := lastFetchedAt e;
                     failure := failure e |}
              | None =>
                  {| value := Some (mergePatch None patch); status := fresh;
                     lastFetchedAt := None; failure := None |}
              end]> (entries c);
     in_flight := in_flight c;
     loader_calls := loader_calls c;
     next_handle := next_handle c |}.

(** Modelled from the spec: "transition to stale occurs once
    lastFetchedAt exceeds the key's configured freshness window"; the
    event is that the window of [k] has passed. *)
Definition expire (k : string) (c : Cache) : Cache :=
  match entries c !! k with
  | Some e =>
      match status e with
      | fresh =>
          {| entries :=
               <[k := {| value := value e; status := stale;
                         lastFetchedAt := lastFetchedAt e;
                         failure := failure e |}]> (entries c);
             in_flight := in_flight c;
             loader_calls := loader_calls c;
             next_handle := next_handle c |}
      | _ => c
      end
  | None => c
  end.

(** What reaches the cache; concurrent callers are any interleaving of
    these steps. *)
Inductive Event : Type :=
  | Fetch (k : string)
  | Settle (k : string) (out : Outcome) (now : nat)
  | Delta (k : string) (patch : gmap string JSON)
  | Expire (k : string).

Definition step (c : Cache) (e : Event) : Cache :=
  match e with
  | Fetch k => (fetch k c).1
  | Settle k out now => settle k out now c
  | Delta k patch => applyDelta k patch c
  | Expire k => expire k c
  end.

Definition run (evs : list Event) (c : Cache) : Cache := foldl step c evs.

(** The events that write the value of [k]: a delta for it and a
    successful completion of its loader. *)
Definition overwrites (k : string) (e : Event) : bool :=
  match e with
  | Delta k' _ => bool_decide (k' = k)
  | Settle k' (Loaded _) _ => bool_decide (k' = k)
  | _ => false
  end.

(** An operation is in flight for a key exactly while its entry is
    fetching, and then it is the only one. *)
Definition consistent (c : Cache) : Prop :=
  ∀ k, running k c = match status (get k c) with fetching => 1 | _ => 0 end.

End RequestCache.

(** ** More inputs of the worked examples *)

Module Samples.

Definition campaigns : list JSON :=
  [ JObj {[ "id" := JNum 1; "status" := JStr "active" ]};
    JObj {[ "id" := JNum 2; "status" := JStr "paused" ]};
    JStr "stray";
    JObj {[ "id" := JNum 3; "status" := JStr "active" ]} ].

Definition executions : list JSON :=
  [ JObj {[ "status" := JStr "completed" ]};
    JObj {[ "status" := JStr "failed" ]} ].

Definition pacing_rows : list JSON :=
  [ JObj {[ "dsp" := JStr "dv360"; "spent" := JNum 120 ]};
    JObj {[ "spent" := JNum 0 ]};
    JObj {[ "dsp" := JStr ""; "spent" := JNum 7 ]} ].

Definition dashboard : JSON :=
  JObj {[ "campaigns" := JArr campaigns;
          "executions" := JArr executions;
          "pacing" := JObj {[ "pacing" := JArr pacing_rows ]} ]}.

(** A network that answers the dashboard request and nothing else. *)
Definition network (req : Client.Request) : option Client.Response :=
  if String.eqb (Client.url req) "/api/dashboard"
  then Some {| Client.status := 200;
               Client.text := JSONText.stringify dashboard |}
  else None.

(** A network that answers every request with 503. *)
Definition unavailable (req : Client.Request) : option Client.Response :=
  Some {| Client.status := 503; Client.text := "maintenance" |}.

End Samples.

(** * Properties *)

(** ** The API client *)

Section ClientFacts.
Import Client.
Context (JSON_parse : string → option JSON).
Context (fetch : Request → option Response).

Lemma ok_range (res : Response) :
  ok res = true ↔ (200 ≤ status res ≤ 299)%Z.
Proof. unfold ok. rewrite andb_true_iff, !Z.leb_le. tauto. Qed.

Lemma parse_not_ok (res : Response) :
  ok res = false →
  parse JSON_parse res =
    RejectedApi {| err_status := status res; message := text res |}.
Proof. intros Hok. unfold parse. now rewrite Hok. Qed.

Lemma parse_ok (res : Response) :
  ok res = true → parse JSON_parse res = json JSON_parse res.
Proof. intros Hok. unfold parse. now rewrite Hok. Qed.

Lemma json_decoded (res : Response) payload :
  JSON_parse (text res) = Some payload →
  json JSON_parse res = Fulfilled payload.
Proof. intros Hdec. unfold json. now rewrite Hdec. Qed.

(** C9.  A response whose status lies outside 200-299 makes [parse] reject
    with an [ApiError] that carries the status code and the text of the
    body; a response whose status lies inside 200-299 makes it return what
    [res.json()] returns, the JSON payload decoded from the body. *)
Theorem parse_typed_failure (res : Response) :
  (¬ (200 ≤ status res ≤ 299)%Z →
     ∃ e, parse JSON_parse res = RejectedApi e
          ∧ err_status e = status res ∧ message e = text res)
  ∧ ((200 ≤ status res ≤ 299)%Z →
     parse JSON_parse res = json JSON_parse res
     ∧ ∀ payload, JSON_parse (text res) = Some payload →
         parse JSON_parse res = Fulfilled payload).
Proof.
  split.
  - intros Hout.
    assert (ok res = false) as Hok.
    { destruct (ok res) eqn:E; [|done]. apply ok_range in E. tauto. }
    eexists. split; [by apply parse_not_ok|done].
  - intros Hin.
    assert (parse JSON_parse res = json JSON_parse res) as Hjson
      by (by apply parse_ok, ok_range).
    split; [done|]. intros payload Hdec.
    rewrite Hjson. by apply json_decoded.
Qed.

(** The pull operation passes the outcome of [parse] through. *)
Lemma apiGet_response (path : string) (res : Response) :
  fetch {| url := API_BASE +:+ path; method := "GET"; headers := [];
           req_body := None |} = Some res →
  apiGet JSON_parse fetch path = parse JSON_parse res.
Proof. intros Hres. unfold apiGet. by rewrite Hres. Qed.

Lemma apiGet_http_failure (path : string) (res : Response) :
  fetch {| url := API_BASE +:+ path; method := "GET"; headers := [];
           req_body := None |} = Some res →
  ok res = false →
  apiGet JSON_parse fetch path =
    RejectedApi {| err_status := status res; message := text res |}.
Proof.
  intros Hres Hok. rewrite (apiGet_response _ _ Hres). by apply parse_not_ok.
Qed.
End ClientFacts.

(** ** The push bridge *)

Section SSEFacts.
Import JS SSE.
Context (JSON_parse : string → option JSON).
Context (hashKey : QueryKey → string).

Local Abbreviation setQueryData := (setQueryData hashKey).
Local Abbreviation getQueryData := (getQueryData hashKey).
Local Abbreviation workflow_update := (workflow_update hashKey).
Local Abbreviation listener := (listener JSON_parse hashKey).
Local Abbreviation dispatch := (dispatch JSON_parse hashKey).
Local Abbreviation receive := (receive JSON_parse hashKey).

Lemma get_set_same (qc : gmap string JSON) key f :
  getQueryData (setQueryData qc key f) key = Some (f (getQueryData qc key)).
Proof. unfold SSE.getQueryData, SSE.setQueryData. apply lookup_insert_eq. Qed.

Lemma get_set_other (qc : gmap string JSON) key key' f :
  hashKey key ≠ hashKey key' →
  getQueryData (setQueryData qc key f) key' = getQueryData qc key'.
Proof.
  intros Hne. unfold SSE.getQueryData, SSE.setQueryData.
  by apply lookup_insert_ne.
Qed.

(** Properties of the patch win. *)
Lemma updater_patch_field (data : JSON) old f v :
  spread data !! f = Some v →
  spread (updater data old) !! f = Some v.
Proof. intros Hf. simpl. by apply lookup_union_Some_l. Qed.

(** Properties the patch does not mention are kept. *)
Lemma updater_other_field (data : JSON) old f :
  spread data !! f = None →
  spread (updater data old) !! f = spread (or_empty old) !! f.
Proof. intros Hf. simpl. by apply lookup_union_r. Qed.

Lemma updater_bootstrap (patch : gmap string JSON) :
  updater (JObj patch) None = JObj patch.
Proof. unfold updater. simpl. by rewrite (right_id_L ∅ (∪)). Qed.

Lemma workflow_update_object (patch : gmap string JSON) qc :
  workflow_update (JObj patch) qc =
    inr (setQueryData qc (workflow_key (patch !! "id")) (updater (JObj patch))).
Proof. reflexivity. Qed.

(** With nothing filed under the key, the delta files the patch itself. *)
Lemma workflow_update_bootstrap (patch : gmap string JSON) qc :
  getQueryData qc (workflow_key (patch !! "id")) = None →
  ∃ qc', workflow_update (JObj patch) qc = inr qc'
         ∧ getQueryData qc' (workflow_key (patch !! "id")) = Some (JObj patch).
Proof.
  intros Hnone. eexists. split; [apply workflow_update_object|].
  by rewrite get_set_same, Hnone, updater_bootstrap.
Qed.

(** C1.  A delta whose payload is the object [patch] replaces the value
    filed under its key by the shallow merge of [patch] into the previous
    value: every field of [patch] is in the new value with the patch's
    content, every other field is as it was before.  Applied to a key with
    no value, the patches {a:1} and then {b:2} leave {a:1, b:2}. *)
Theorem delta_shallow_merge (qc : gmap string JSON) :
  (∀ patch : gmap string JSON,
     let key := workflow_key (patch !! "id") in
     ∃ qc' merged,
       workflow_update (JObj patch) qc = inr qc'
       ∧ getQueryData qc' key = Some (JObj merged)
       ∧ (∀ f v, patch !! f = Some v → merged !! f = Some v)
       ∧ (∀ f, patch !! f = None →
            merged !! f = spread (or_empty (getQueryData qc key)) !! f))
  ∧ (getQueryData qc (workflow_key None) = None →
     ∃ qc1 qc2,
       workflow_update (JObj {[ "a" := JNum 1 ]}) qc = inr qc1
       ∧ workflow_update (JObj {[ "b" := JNum 2 ]}) qc1 = inr qc2
       ∧ getQueryData qc2 (workflow_key None) =
           Some (JObj {[ "a" := JNum 1; "b" := JNum 2 ]})).
Proof.
  split.
  - intros patch key.
    eexists _, _. split; [apply workflow_update_object|].
    split; [rewrite get_set_same; reflexivity|]. split.
    + intros f v Hf. by apply (updater_patch_field (JObj patch)).
    + intros f Hf. by apply (updater_other_field (JObj patch)).
  - intros Hnone.
    eexists _, _. split; [apply workflow_update_object|].
    split; [apply workflow_update_object|].
    change (({[ "b" := JNum 2 ]} : gmap string JSON) !! "id")
      with (@None JSON).
    change (({[ "a" := JNum 1 ]} : gmap string JSON) !! "id")
      with (@None JSON).
    rewrite !get_set_same, Hnone, updater_bootstrap.
    reflexivity.
Qed.
(** *** Delivery of frames *)

Lemma dispatch_readyState (b : Bridge) e :
  readyState (dispatch b e) = readyState b.
Proof.
  unfold SSE.dispatch.
  destruct (readyState b) eqn:Hrs; try done;
    destruct (String.eqb _ _); try done;
    by destruct (SSE.listener _ _ _ _).
Qed.

Lemma receive_readyState frames (b : Bridge) :
  readyState (receive frames b) = readyState b.
Proof.
  unfold SSE.receive. revert b.
  induction frames as [|e frames IH]; intros b; simpl; [done|].
  by rewrite IH, dispatch_readyState.
Qed.

Lemma receive_app pre post (b : Bridge) :
  receive (pre ++ post) b = receive post (receive pre b).
Proof. unfold SSE.receive. apply foldl_app. Qed.

(** A frame that decodes to an object reaches the cache. *)
Lemma dispatch_object (b : Bridge) e (patch : gmap string JSON) :
  readyState b = OPEN →
  type e = "workflow_update" →
  JSON_parse (data e) = Some (JObj patch) →
  dispatch b e =
    {| readyState := OPEN;
       qc := setQueryData (qc b) (workflow_key (patch !! "id"))
               (updater (JObj patch));
       reported := reported b |}.
Proof.
  intros Hopen Hty Hdec. unfold SSE.dispatch, SSE.listener.
  by rewrite Hopen, Hty, Hdec.
Qed.

(** A frame that does not decode leaves the source and the cache alone. *)
Lemma dispatch_undecodable (b : Bridge) e :
  JSON_parse (data e) = None →
  readyState (dispatch b e) = readyState b ∧ qc (dispatch b e) = qc b.
Proof.
  intros Hdec. split; [apply dispatch_readyState|].
  unfold SSE.dispatch, SSE.listener. rewrite Hdec.
  destruct (readyState b); try done; by destruct (String.eqb _ _).
Qed.

(** What later frames do to the cache depends on the source and the cache
    only, not on the exceptions reported so far. *)
Lemma receive_cache_ext frames (b b' : Bridge) :
  readyState b = readyState b' → qc b = qc b' →
  qc (receive frames b) = qc (receive frames b').
Proof.
  unfold SSE.receive. revert b b'.
  induction frames as [|e frames IH]; intros b b' Hrs Hqc; simpl; [done|].
  apply IH.
  - by rewrite !dispatch_readyState.
  - unfold SSE.dispatch. rewrite <- Hrs, <- Hqc.
    destruct (readyState b); try done;
      destruct (String.eqb _ _); try done;
      by destruct (SSE.listener _ _ _ _).
Qed.

(** C3.  A frame whose payload fails to decode is dropped alone.  For frames
    valid, malformed, valid delivered to an open source, the cache ends up
    with the first delta and then the second applied and the source is still
    open; and wherever an undecodable frame stands in a stream, the source
    state is untouched and the cache ends up as if that frame had not been
    sent. *)
Theorem malformed_frame_dropped (b : Bridge) :
  (∀ e1 e2 e3 (p1 p3 : gmap string JSON),
     readyState b = OPEN →
     type e1 = "workflow_update" →
     type e2 = "workflow_update" →
     type e3 = "workflow_update" →
     JSON_parse (data e1) = Some (JObj p1) →
     JSON_parse (data e2) = None →
     JSON_parse (data e3) = Some (JObj p3) →
     readyState (receive [e1; e2; e3] b) = OPEN
     ∧ qc (receive [e1; e2; e3] b) =
         setQueryData
           (setQueryData (qc b) (workflow_key (p1 !! "id"))
              (updater (JObj p1)))
           (workflow_key (p3 !! "id")) (updater (JObj p3)))
  ∧ (∀ pre e post,
       JSON_parse (data e) = None →
       readyState (receive (pre ++ e :: post) b) = readyState b
       ∧ qc (receive (pre ++ e :: post) b) = qc (receive (pre ++ post) b)).
Proof.
  split.
  - intros e1 e2 e3 p1 p3 Hopen H1 H2 H3 D1 D2 D3.
    split; [by rewrite receive_readyState|].
    unfold SSE.receive. simpl.
    rewrite (dispatch_object b e1 p1 Hopen H1 D1).
    set (b1 := {| readyState := OPEN; qc := _; reported := _ |}).
    destruct (dispatch_undecodable b1 e2 D2) as [Hrs2 Hqc2].
    rewrite (dispatch_object (dispatch b1 e2) e3 p3); [|by rewrite Hrs2|done|done].
    simpl. by rewrite Hqc2.
  - intros pre e post Hdec. split; [apply receive_readyState|].
    rewrite !receive_app.
    change (receive (e :: post) (receive pre b))
      with (receive post (dispatch (receive pre b) e)).
    destruct (dispatch_undecodable (receive pre b) e Hdec) as [Hrs Hqc].
    by apply receive_cache_ext.
Qed.
End SSEFacts.

(** ** The notification store *)

Section UIFacts.
Import UI.
Context (randomUUID : nat → string).

Local Abbreviation effect := (UI.effect).
Local Abbreviation step := (UI.step randomUUID).
Local Abbreviation run := (UI.run randomUUID).
Local Abbreviation removals := (UI.removals randomUUID).
Local Abbreviation known := (UI.known randomUUID).
Local Abbreviation well_formed := (UI.well_formed randomUUID).
Local Abbreviation tracked := (UI.tracked randomUUID).

(** *** The store operations *)

Lemma ids_addToast u msg ty s :
  ids (addToast u msg ty s) = ids s ++ [u].
Proof. unfold ids. simpl. by rewrite fmap_app. Qed.

Lemma elem_of_ids_removeToast i j s :
  i ∈ ids (removeToast j s) ↔ i ∈ ids s ∧ i ≠ j.
Proof.
  unfold ids. simpl. rewrite !list_elem_of_fmap. split.
  - intros (t & -> & Ht). apply list_elem_of_filter in Ht as [Hne Ht].
    split; [by exists t|done].
  - intros [(t & -> & Ht) Hne]. exists t. split; [done|].
    by apply list_elem_of_filter.
Qed.

Lemma removeToast_idempotent i s :
  removeToast i (removeToast i s) = removeToast i s.
Proof.
  unfold removeToast. simpl. f_equal.
  rewrite list_filter_filter. apply list_filter_iff. tauto.
Qed.

Lemma removeToast_absent i s :
  i ∉ ids s → removeToast i s = s.
Proof.
  intros Hnot. destruct s as [c ts]. unfold removeToast. simpl. f_equal.
  unfold ids in Hnot. simpl in Hnot.
  induction ts as [|t ts IH]; [done|].
  rewrite fmap_cons, not_elem_of_cons in Hnot. destruct Hnot as [Hne Hnot].
  rewrite filter_cons_True by done. by rewrite IH.
Qed.

(** *** One store update followed by the effect *)

Lemma timers_update_toasts f a t :
  t ∈ timers (update_toasts f a) ↔
  t ∈ timers a
  ∨ (due t = now a + LIFETIME ∧ target t ∈ ids (f (store a))).
Proof.
  unfold update_toasts, UI.effect, ids. simpl.
  rewrite elem_of_app, !list_elem_of_fmap. split.
  - intros [Hold|(x & -> & Hx)]; [by left|right]. simpl. split; [done|].
    by exists x.
  - intros [Hold|[Hdue (x & Htg & Hx)]]; [by left|right].
    exists x. split; [|done]. destruct t as [d g]. simpl in *. by subst.
Qed.

(** *** Timers that run at one instant *)

Lemma foldl_fire_now l a : now (foldl fire a l) = now a.
Proof. revert a. induction l as [|t l IH]; intros a; simpl; [done|]. by rewrite IH. Qed.

Lemma foldl_fire_drawn l a : drawn (foldl fire a l) = drawn a.
Proof. revert a. induction l as [|t l IH]; intros a; simpl; [done|]. by rewrite IH. Qed.

Lemma foldl_fire_ids l a i :
  i ∈ ids (store (foldl fire a l)) ↔
  i ∈ ids (store a) ∧ i ∉ target <$> l.
Proof.
  revert a. induction l as [|t l IH]; intros a; simpl.
  - rewrite elem_of_nil. tauto.
  - rewrite IH. unfold fire. simpl.
    rewrite elem_of_ids_removeToast, not_elem_of_cons. tauto.
Qed.

Lemma foldl_fire_timers l a t :
  t ∈ timers (foldl fire a l) →
  t ∈ timers a ∨ (due t = now a + LIFETIME ∧ target t ∈ ids (store a)).
Proof.
  revert a. induction l as [|t' l IH]; intros a; simpl; [by left|].
  intros Ht. apply IH in Ht. unfold fire in Ht.
  destruct Ht as [Ht|[Hdue Htg]].
  - apply timers_update_toasts in Ht as [Ht|[Hdue Htg]]; [by left|right].
    split; [done|]. by apply elem_of_ids_removeToast in Htg as [? _].
  - right. split; [done|]. simpl in Htg.
    by apply elem_of_ids_removeToast in Htg as [? _].
Qed.

Lemma foldl_fire_timers_keep l a t :
  t ∈ timers a → t ∈ timers (foldl fire a l).
Proof.
  revert a. induction l as [|t' l IH]; intros a Ht; simpl; [done|].
  apply IH. unfold fire. apply timers_update_toasts. by left.
Qed.
Lemma run_due_now a : now (run_due a) = now a.
Proof. unfold run_due. by rewrite foldl_fire_now. Qed.

Lemma run_due_drawn a : drawn (run_due a) = drawn a.
Proof. unfold run_due. by rewrite foldl_fire_drawn. Qed.

Lemma run_due_ids a i :
  i ∈ ids (store (run_due a)) ↔
  i ∈ ids (store a) ∧ ¬ ∃ t, t ∈ timers a ∧ due t ≤ now a ∧ target t = i.
Proof.
  unfold run_due. rewrite foldl_fire_ids. simpl.
  rewrite list_elem_of_fmap. split.
  - intros [Hi Hno]. split; [done|]. intros (t & Ht & Hdue & Htg).
    apply Hno. exists t. split; [done|]. by apply list_elem_of_filter.
  - intros [Hi Hno]. split; [done|]. intros (t & Htg & Ht).
    apply list_elem_of_filter in Ht as [Hdue Ht]. apply Hno. by exists t.
Qed.

Lemma run_due_timers a t :
  t ∈ timers (run_due a) →
  (t ∈ timers a ∧ now a < due t)
  ∨ (due t = now a + LIFETIME ∧ target t ∈ ids (store a)).
Proof.
  unfold run_due. intros Ht. apply foldl_fire_timers in Ht. simpl in Ht.
  destruct Ht as [Ht|Ht]; [left|by right].
  apply list_elem_of_filter in Ht as [Hdue Ht]. split; [done|lia].
Qed.

Lemma run_due_timers_keep a t :
  t ∈ timers a → now a < due t → t ∈ timers (run_due a).
Proof.
  intros Ht Hdue. unfold run_due. apply foldl_fire_timers_keep. simpl.
  apply list_elem_of_filter. split; [lia|done].
Qed.

(** *** Steps *)

Lemma step_now_mono a e : now a ≤ now (step a e).
Proof. destruct e; simpl; try done. rewrite run_due_now. simpl. lia. Qed.

Lemma run_now_mono evs a : now a ≤ now (run evs a).
Proof.
  unfold UI.run. revert a. induction evs as [|e evs IH]; intros a; simpl; [done|].
  etrans; [apply (step_now_mono a e)|apply IH].
Qed.

Lemma known_mono a a' i :
  drawn a ≤ drawn a' → known a i → known a' i.
Proof. intros Hle (n & Hn & ->). exists n. split; [lia|done]. Qed.

Lemma well_formed_mount t0 : well_formed (mount t0).
Proof.
  split.
  - intros i Hi. by apply elem_of_nil in Hi.
  - intros t Ht. by apply elem_of_nil in Ht.
Qed.

Lemma well_formed_step a e : well_formed a → well_formed (step a e).
Proof.
  intros [Hids Htm]. destruct e as [msg ty|j| |].
  - assert (∀ i, i ∈ ids (addToast (randomUUID (drawn a)) msg ty (store a)) →
              known (step a (Push msg ty)) i) as Hnew.
    { intros i Hi. rewrite ids_addToast in Hi.
      apply elem_of_app in Hi as [Hi|Hi].
      - apply (known_mono a); [simpl; lia|by apply Hids].
      - apply list_elem_of_singleton in Hi as ->. exists (drawn a).
        split; [simpl; lia|done]. }
    split; [done|].
    intros t Ht. apply timers_update_toasts in Ht as [Ht|[_ Ht]].
    + apply (known_mono a); [simpl; lia|by apply Htm].
    + by apply Hnew.
  - split.
    + intros i Hi. simpl in Hi. apply elem_of_ids_removeToast in Hi as [Hi _].
      by apply Hids.
    + intros t Ht. apply timers_update_toasts in Ht as [Ht|[_ Ht]].
      * by apply Htm.
      * apply elem_of_ids_removeToast in Ht as [Ht _]. by apply Hids.
  - split; [done|done].
  - split.
    + intros i Hi. simpl in Hi. apply run_due_ids in Hi as [Hi _].
      apply (known_mono a); [simpl; by rewrite run_due_drawn|by apply Hids].
    + intros t Ht. simpl in Ht.
      apply (known_mono a); [simpl; by rewrite run_due_drawn|].
      apply run_due_timers in Ht as [[Ht _]|[_ Ht]]; [by apply Htm|by apply Hids].
Qed.

Lemma well_formed_run evs a : well_formed a → well_formed (run evs a).
Proof.
  unfold UI.run. revert a. induction evs as [|e evs IH]; intros a Hwf; simpl; [done|].
  by apply IH, well_formed_step.
Qed.
(** *** A pushed toast and its timers *)

(** Distinct draws give distinct UUIDs. *)
Context (uuid_unique : Inj (=) (=) randomUUID).

Lemma known_fresh a n : known a (randomUUID n) → n < drawn a.
Proof. intros (m & Hm & Heq). apply uuid_unique in Heq. by subst. Qed.

Lemma tracked_push a msg ty :
  well_formed a →
  tracked (drawn a) (now a) (step a (Push msg ty))
  ∧ randomUUID (drawn a) ∈ ids (store (step a (Push msg ty))).
Proof.
  intros [Hids Htm].
  assert (randomUUID (drawn a) ∈ ids (store (step a (Push msg ty)))) as Hin.
  { simpl. rewrite ids_addToast, elem_of_app, list_elem_of_singleton. by right. }
  split; [|done]. unfold UI.tracked.
  split; [done|]. split; [simpl; lia|]. split; [|split].
  - intros t Ht Htg. apply timers_update_toasts in Ht as [Ht|[Hdue _]].
    + apply Htm in Ht. rewrite Htg in Ht. apply known_fresh in Ht. lia.
    + simpl in Hdue. lia.
  - intros _. apply timers_update_toasts. right. by split.
  - unfold LIFETIME. simpl. lia.
Qed.

Lemma tracked_step n T a e : tracked n T a → tracked n T (step a e).
Proof.
  intros (Hnow & Hn & Hdue & Hpend & Hgone).
  destruct e as [msg ty|j| |].
  - unfold UI.tracked. split; [done|]. split; [simpl; lia|]. split; [|split].
    + intros t Ht Htg. apply timers_update_toasts in Ht as [Ht|[Hd _]].
      * by apply Hdue.
      * simpl in Hd. lia.
    + intros Hlt. apply timers_update_toasts. left. by apply Hpend.
    + intros Hge. simpl. rewrite ids_addToast, elem_of_app.
      intros [Hi|Hi]; [by apply Hgone|].
      apply list_elem_of_singleton, uuid_unique in Hi. lia.
  - unfold UI.tracked. split; [done|]. split; [done|]. split; [|split].
    + intros t Ht Htg. apply timers_update_toasts in Ht as [Ht|[Hd _]].
      * by apply Hdue.
      * simpl in Hd. lia.
    + intros Hlt. apply timers_update_toasts. left. by apply Hpend.
    + intros Hge. simpl. rewrite elem_of_ids_removeToast.
      intros [Hi _]. by apply Hgone.
  - done.
  - unfold UI.tracked. simpl. rewrite run_due_now, run_due_drawn. simpl.
    split; [lia|]. split; [done|]. split; [|split].
    + intros t Ht Htg. apply run_due_timers in Ht as [[Ht _]|[Hd _]].
      * by apply Hdue.
      * simpl in Hd. lia.
    + intros Hlt. apply run_due_timers_keep; simpl; [|lia].
      apply Hpend. lia.
    + intros Hge. rewrite run_due_ids. simpl. intros [Hi Hno].
      destruct (decide (T + LIFETIME ≤ now a)) as [Hold|Hyoung].
      * by apply Hgone.
      * apply Hno. eexists. split; [apply Hpend; lia|]. simpl. split; [lia|done].
Qed.

Lemma tracked_run n T evs a : tracked n T a → tracked n T (run evs a).
Proof.
  unfold UI.run. revert a. induction evs as [|e evs IH]; intros a Htr; simpl; [done|].
  by apply IH, tracked_step.
Qed.

(** Before its lifetime is over only a dismissal removes the toast. *)
Lemma present_step n T a e :
  tracked n T a →
  dismisses (randomUUID n) e = false →
  randomUUID n ∈ ids (store a) →
  now (step a e) < T + LIFETIME →
  randomUUID n ∈ ids (store (step a e)).
Proof.
  intros (Hnow & Hn & Hdue & Hpend & Hgone) Hdis Hin Hlt.
  destruct e as [msg ty|j| |]; simpl in *.
  - rewrite ids_addToast, elem_of_app. by left.
  - apply elem_of_ids_removeToast. split; [done|].
    intros Heq. apply bool_decide_eq_false in Hdis. by apply Hdis.
  - done.
  - rewrite run_due_now in Hlt. simpl in Hlt.
    apply run_due_ids. simpl. split; [done|].
    intros (t & Ht & Hd & Htg). specialize (Hdue t Ht Htg). lia.
Qed.

Lemma present_run n T evs a :
  tracked n T a →
  forallb (λ e, negb (dismisses (randomUUID n) e)) evs = true →
  randomUUID n ∈ ids (store a) →
  now (run evs a) < T + LIFETIME →
  randomUUID n ∈ ids (store (run evs a)).
Proof.
  revert a. induction evs as [|e evs IH]; intros a Htr Hnd Hin Hlt; [done|].
  simpl in Hnd. apply andb_true_iff in Hnd as [Hd Hnd].
  apply negb_true_iff in Hd.
  change (run (e :: evs) a) with (run evs (step a e)) in *.
  apply IH; [by apply tracked_step|done| |done].
  apply (present_step n T); try done.
  pose proof (run_now_mono evs (step a e)). lia.
Qed.

(** A removed toast does not come back. *)
Lemma absent_step n T a e :
  tracked n T a →
  randomUUID n ∉ ids (store a) →
  randomUUID n ∉ ids (store (step a e)).
Proof.
  intros (Hnow & Hn & _) Hout. destruct e as [msg ty|j| |]; simpl.
  - rewrite ids_addToast, elem_of_app. intros [Hi|Hi]; [done|].
    apply list_elem_of_singleton, uuid_unique in Hi. lia.
  - rewrite elem_of_ids_removeToast. tauto.
  - done.
  - rewrite run_due_ids. simpl. tauto.
Qed.

Lemma absent_run n T evs a :
  tracked n T a →
  randomUUID n ∉ ids (store a) →
  randomUUID n ∉ ids (store (run evs a)).
Proof.
  unfold UI.run. revert a. induction evs as [|e evs IH]; intros a Htr Hout; simpl; [done|].
  apply IH; [by apply tracked_step|by apply (absent_step n T)].
Qed.

Lemma removals_count n T evs a :
  tracked n T a →
  removals (randomUUID n) evs a =
    if present (randomUUID n) a && negb (present (randomUUID n) (run evs a))
    then 1 else 0.
Proof.
  revert a. induction evs as [|e evs IH]; intros a Htr.
  - simpl. by destruct (present _ a).
  - change (run (e :: evs) a) with (run evs (step a e)).
    simpl. rewrite (IH (step a e)) by (by apply tracked_step).
    unfold present.
    destruct (decide (randomUUID n ∈ ids (store a))) as [Hin|Hout].
    + rewrite (bool_decide_eq_true_2 _ Hin).
      destruct (decide (randomUUID n ∈ ids (store (step a e)))) as [Hin'|Hout'].
      * rewrite (bool_decide_eq_true_2 _ Hin'). simpl.
        by destruct (bool_decide _).
      * rewrite (bool_decide_eq_false_2 _ Hout'). simpl.
        rewrite bool_decide_eq_false_2; [done|].
        apply (absent_run n T); [by apply tracked_step|done].
    + rewrite (bool_decide_eq_false_2 _ Hout). simpl.
      rewrite (bool_decide_eq_false_2 (randomUUID n ∈ ids (store (step a e)))); [done|].
      by apply (absent_step n T).
Qed.
(** C5.  A toast pushed at instant [T] (in any reachable state of the
    mounted application, whatever happens before and after) is in the store
    at every instant before [T + LIFETIME] unless it is dismissed, is out of
    the store at every instant from [T + LIFETIME] on whether dismissed or
    not, and by then has left the store exactly once; and [removeToast] of
    an id applied twice is [removeToast] applied once. *)
Theorem toast_expires_once (t0 : nat) (before after : list Event) msg ty :
  let a := run before (mount t0) in
  let i := randomUUID (drawn a) in
  let pushed := step a (Push msg ty) in
  let a' := run after pushed in
  i ∈ ids (store pushed)
  ∧ (forallb (λ e, negb (dismisses i e)) after = true →
     now a' < now a + LIFETIME → i ∈ ids (store a'))
  ∧ (now a + LIFETIME ≤ now a' →
     (i ∉ ids (store a')) ∧ removals i after pushed = 1)
  ∧ (∀ j s, removeToast j (removeToast j s) = removeToast j s).
Proof.
  intros a i pushed a'.
  assert (well_formed a) as Hwf by apply well_formed_run, well_formed_mount.
  destruct (tracked_push a msg ty Hwf) as [Htr Hin].
  fold pushed i in Htr, Hin.
  split; [done|]. split; [|split].
  - intros Hnd Hlt. by apply (present_run (drawn a) (now a)).
  - intros Hge.
    assert (i ∉ ids (store a')) as Hout.
    { by apply (tracked_run (drawn a) (now a) after pushed Htr). }
    split; [done|].
    unfold i. rewrite (removals_count (drawn a) (now a)) by done.
    unfold present. fold i pushed a'.
    by rewrite (bool_decide_eq_true_2 _ Hin), (bool_decide_eq_false_2 _ Hout).
  - intros j s. apply removeToast_idempotent.
Qed.
End UIFacts.

(** ** The preference store *)

Section PrefsFacts.
Import Prefs.
Context (JSON_stringify : JSON → string).
Context (JSON_parse : string → option JSON).

Local Abbreviation set := (Prefs.set JSON_stringify).
Local Abbreviation setDensity := (Prefs.setDensity JSON_stringify).
Local Abbreviation hydrate := (Prefs.hydrate JSON_parse).
Local Abbreviation restart := (Prefs.restart JSON_parse).

Lemma state_set partial p : state (set partial p) = partial ∪ state p.
Proof. done. Qed.

Lemma slot_set partial p :
  localStorage (set partial p) !! name =
    Some (JSON_stringify (JObj (partial ∪ state p))).
Proof. simpl. apply lookup_insert_eq. Qed.

(** What was written is what the next process starts from, the defaults
    filling in the names the slot does not mention. *)
Lemma hydrate_decoded storage item (persisted : gmap string JSON) :
  storage !! name = Some item →
  JSON_parse item = Some (JObj persisted) →
  hydrate storage = persisted ∪ defaults.
Proof. intros Hslot Hdec. unfold Prefs.hydrate. by rewrite Hslot, Hdec. Qed.

Lemma hydrate_absent storage :
  storage !! name = None → hydrate storage = defaults.
Proof. intros Hslot. unfold Prefs.hydrate. by rewrite Hslot. Qed.

Lemma hydrate_corrupt storage item :
  storage !! name = Some item → JSON_parse item = None →
  hydrate storage = defaults.
Proof. intros Hslot Hdec. unfold Prefs.hydrate. by rewrite Hslot, Hdec. Qed.

Lemma restart_set partial p :
  JSON_parse (JSON_stringify (JObj (partial ∪ state p)))
    = Some (JObj (partial ∪ state p)) →
  state (restart (set partial p)) = (partial ∪ state p) ∪ defaults.
Proof.
  intros Hrt. unfold Prefs.restart, Prefs.usePreferencesStore.
  cbn [state]. by apply (hydrate_decoded _ _ _ (slot_set partial p)).
Qed.

(** C6.  A preference write survives a restart.  When the text written to
    the slot decodes back to the mapping that was serialised, every name
    set to a value reads as that value in the process started next,
    whatever default the reader falls back on; so [setDensity compact]
    followed by a restart reads ["compact"] where the default is
    ["comfortable"]. *)
Theorem set_survives_restart (p : Process) :
  (∀ (partial : gmap string JSON) nm value fallback,
     partial !! nm = Some value →
     JSON_parse (JSON_stringify (JObj (partial ∪ state p)))
       = Some (JObj (partial ∪ state p)) →
     default fallback (state (restart (set partial p)) !! nm) = value)
  ∧ (let written := {[ "tableDensity" := JStr "compact" ]} ∪ state p in
     JSON_parse (JSON_stringify (JObj written)) = Some (JObj written) →
     default (JStr "comfortable")
       (state (restart (setDensity compact p)) !! "tableDensity")
     = JStr "compact").
Proof.
  assert (∀ (partial : gmap string JSON) nm value,
            partial !! nm = Some value →
            JSON_parse (JSON_stringify (JObj (partial ∪ state p)))
              = Some (JObj (partial ∪ state p)) →
            state (restart (set partial p)) !! nm = Some value) as Hread.
  { intros partial nm value Hnm Hrt. rewrite (restart_set _ _ Hrt).
    by apply lookup_union_Some_l, lookup_union_Some_l. }
  split.
  - intros partial nm value fallback Hnm Hrt.
    by rewrite (Hread _ _ _ Hnm Hrt).
  - intros written Hrt. unfold Prefs.setDensity.
    rewrite (Hread _ "tableDensity" (JStr "compact")); [done| |done].
    apply lookup_singleton_eq.
Qed.

(** C10.  [setDensity d] sets [tableDensity] to [d] and leaves every other
    preference in the state as it was, [theme] among them. *)
Theorem setDensity_frame (p : Process) (d : Density) :
  state (setDensity d p) !! "tableDensity" = Some (JStr (density_text d))
  ∧ (∀ nm, nm ≠ "tableDensity" →
       state (setDensity d p) !! nm = state p !! nm)
  ∧ state (setDensity d p) !! "theme" = state p !! "theme".
Proof.
  assert (∀ nm, nm ≠ "tableDensity" →
            state (setDensity d p) !! nm = state p !! nm) as Hother.
  { intros nm Hne. unfold Prefs.setDensity. rewrite state_set.
    apply lookup_union_r. by apply lookup_singleton_ne. }
  split; [|split; [done|by apply Hother]].
  unfold Prefs.setDensity. rewrite state_set.
  apply lookup_union_Some_l, lookup_singleton_eq.
Qed.
End PrefsFacts.

(** ** Worked examples *)

Section Examples.
Import JS SSE Demo.

Local Abbreviation parse := JSONText.parse.
Local Abbreviation stringify := JSONText.stringify.

(** The merge is shallow: a nested object is replaced, not merged. *)
Example updater_is_shallow :
  updater (JObj {[ "a" := JObj {[ "y" := JNum 2 ]} ]})
          (Some (JObj {[ "a" := JObj {[ "x" := JNum 1 ]}; "b" := JNum 3 ]}))
  = JObj {[ "a" := JObj {[ "y" := JNum 2 ]}; "b" := JNum 3 ]}.
Proof. reflexivity. Qed.

(** A falsy previous value counts as no value. *)
Example updater_falsy_old :
  updater (JObj {[ "a" := JNum 1 ]}) (Some (JNum 0))
  = JObj {[ "a" := JNum 1 ]}.
Proof. reflexivity. Qed.

(** Frames with another event name and frames that decode to [null] leave
    the cache alone as well. *)
Example receive_mixed_stream :
  let b := receive parse text_hash
             [frame1; heartbeat; frame2; null_frame; frame3] (useSSE ∅) in
  readyState b = OPEN
  ∧ getQueryData text_hash (qc b) (workflow_key (Some (JNum 7)))
    = Some (JObj {[ "id" := JNum 7; "status" := JStr "running";
                    "progress" := JNum 40 ]})
  ∧ reported b = [TypeError; SyntaxError].
Proof. vm_compute. by repeat split. Qed.

Lemma delta_shallow_merge_witness :
  getQueryData text_hash ∅ (workflow_key None) = None
  ∧ ∃ qc1 qc2,
      workflow_update text_hash (JObj {[ "a" := JNum 1 ]}) ∅ = inr qc1
      ∧ workflow_update text_hash (JObj {[ "b" := JNum 2 ]}) qc1 = inr qc2
      ∧ getQueryData text_hash qc2 (workflow_key None) =
          Some (JObj {[ "a" := JNum 1; "b" := JNum 2 ]}).
Proof.
  split; [reflexivity|].
  apply (proj2 (delta_shallow_merge text_hash ∅)). reflexivity.
Defined.

Lemma malformed_frame_dropped_witness :
  (readyState (useSSE ∅) = OPEN
   ∧ type frame1 = "workflow_update"
   ∧ type frame2 = "workflow_update"
   ∧ type frame3 = "workflow_update"
   ∧ parse (data frame1) = Some (JObj running)
   ∧ parse (data frame2) = None
   ∧ parse (data frame3) = Some (JObj progress))
  ∧ readyState (receive parse text_hash [frame1; frame2; frame3] (useSSE ∅))
    = OPEN
  ∧ qc (receive parse text_hash [frame1; frame2; frame3] (useSSE ∅)) =
      setQueryData text_hash
        (setQueryData text_hash ∅ (workflow_key (running !! "id"))
           (updater (JObj running)))
        (workflow_key (progress !! "id")) (updater (JObj progress)).
Proof.
  split; [by vm_compute|].
  apply (proj1 (malformed_frame_dropped parse text_hash (useSSE ∅))
           frame1 frame2 frame3 running progress);
    by vm_compute.
Defined.

Lemma parse_typed_failure_witness :
  (¬ (200 ≤ Client.status not_found ≤ 299)%Z
   ∧ ∃ e, Client.parse parse not_found = Client.RejectedApi e
          ∧ Client.err_status e = 404%Z
          ∧ Client.message e = "no such campaign")
  ∧ ((200 ≤ Client.status found ≤ 299)%Z
     ∧ parse (Client.text found) = Some (JObj {[ "campaigns" := JArr [] ]})
     ∧ Client.parse parse found
       = Client.Fulfilled (JObj {[ "campaigns" := JArr [] ]})).
Proof.
  split.
  - assert (¬ (200 ≤ Client.status not_found ≤ 299)%Z) as Hout
      by (simpl; lia).
    split; [done|].
    apply (proj1 (parse_typed_failure parse not_found) Hout).
  - assert (200 ≤ Client.status found ≤ 299)%Z as Hin by (simpl; lia).
    assert (parse (Client.text found) = Some (JObj {[ "campaigns" := JArr [] ]}))
      as Hdec by (by vm_compute).
    split; [done|]. split; [done|].
    apply (proj2 (proj2 (parse_typed_failure parse found) Hin) _ Hdec).
Defined.

Lemma toast_expires_once_witness :
  Inj (=) (=) numeral
  ∧ numeral 0 ∈
      UI.ids (UI.store (UI.run numeral (replicate 4999 UI.Tick)
                (UI.step numeral (UI.mount 0) (UI.Push "saved" (Some UI.success)))))
  ∧ (numeral 0 ∉
      UI.ids (UI.store (UI.run numeral (replicate 5000 UI.Tick)
                (UI.step numeral (UI.mount 0) (UI.Push "saved" (Some UI.success))))))
  ∧ UI.removals numeral (numeral 0) (replicate 5000 UI.Tick)
      (UI.step numeral (UI.mount 0) (UI.Push "saved" (Some UI.success))) = 1.
Proof.
  assert (Inj (=) (=) numeral) as Hinj by (unfold numeral; apply _).
  split; [done|]. split.
  - apply (proj1 (proj2 (toast_expires_once numeral Hinj 0 []
                           (replicate 4999 UI.Tick) "saved" (Some UI.success)))).
    + by vm_compute.
    + apply Nat.ltb_lt. by vm_compute.
  - apply (proj1 (proj2 (proj2 (toast_expires_once numeral Hinj 0 []
                           (replicate 5000 UI.Tick) "saved" (Some UI.success))))).
    apply Nat.leb_le. by vm_compute.
Defined.

Lemma set_survives_restart_witness :
  let p := Prefs.usePreferencesStore parse ∅ in
  let written := {[ "tableDensity" := JStr "compact" ]} ∪ Prefs.state p in
  parse (stringify (JObj written)) = Some (JObj written)
  ∧ default (JStr "comfortable")
      (Prefs.state (Prefs.restart parse
                      (Prefs.setDensity stringify Prefs.compact p))
         !! "tableDensity")
    = JStr "compact".
Proof.
  intros p written.
  assert (parse (stringify (JObj written)) = Some (JObj written)) as Hrt
    by (by vm_compute).
  split; [done|].
  apply (proj2 (set_survives_restart stringify parse p) Hrt).
Defined.

Lemma setDensity_frame_witness :
  let p := Prefs.usePreferencesStore parse ∅ in
  "theme" ≠ "tableDensity"
  ∧ Prefs.state (Prefs.setDensity stringify Prefs.compact p) !! "theme"
    = Prefs.state p !! "theme".
Proof.
  intros p. split; [done|].
  apply (proj1 (proj2 (setDensity_frame stringify p Prefs.compact))). done.
Defined.
End Examples.

(** ** More on the push bridge *)

Section BridgeFacts.
Import JS SSE Stream.
Context (JSON_parse : string → option JSON).
Context (hashKey : QueryKey → string).

Local Abbreviation setQueryData := (SSE.setQueryData hashKey).
Local Abbreviation getQueryData := (SSE.getQueryData hashKey).
Local Abbreviation workflow_update := (SSE.workflow_update hashKey).
Local Abbreviation listener := (SSE.listener JSON_parse hashKey).
Local Abbreviation dispatch := (SSE.dispatch JSON_parse hashKey).
Local Abbreviation receive := (SSE.receive JSON_parse hashKey).
Local Abbreviation effective := (Stream.effective JSON_parse).

Lemma workflow_update_inv data (qc qc' : gmap string JSON) :
  workflow_update data qc = inr qc' →
  ∃ id, read_id data = inr id
        ∧ qc' = setQueryData qc (workflow_key id) (updater data).
Proof.
  unfold SSE.workflow_update. destruct (read_id data) as [e|id]; [done|].
  intros [= <-]. by exists id.
Qed.

Lemma or_empty_object (m : gmap string JSON) :
  or_empty (Some (JObj m)) = JObj m.
Proof. done. Qed.

(** Merging the same payload again changes nothing. *)
Lemma updater_twice data old :
  updater data (Some (updater data old)) = updater data old.
Proof.
  unfold updater. rewrite or_empty_object. cbn [spread].
  f_equal. by rewrite (assoc_L (∪)), (idemp_L (∪)).
Qed.

(** Two merges are the merge of the later payload over the earlier. *)
Lemma updater_compose (p1 p2 : gmap string JSON) old :
  updater (JObj p2) (Some (updater (JObj p1) old))
  = updater (JObj (p2 ∪ p1)) old.
Proof.
  unfold updater. rewrite or_empty_object. cbn [spread].
  f_equal. by rewrite (assoc_L (∪)).
Qed.

(** A frame for the listener whose payload is the JSON text of [null]
    makes [data.id] throw: the event loop gets a [TypeError] and the cache
    is as before. *)
Lemma null_payload_reported (b : Bridge) (e : MessageEvent) :
  readyState b = OPEN →
  type e = "workflow_update" →
  JSON_parse (data e) = Some JNull →
  dispatch b e =
    {| readyState := OPEN; qc := qc b; reported := TypeError :: reported b |}.
Proof.
  intros Hopen Hty Hdec. unfold SSE.dispatch, SSE.listener.
  by rewrite Hopen, Hty, Hdec.
Qed.

Lemma dispatch_ineffective (b : Bridge) e :
  effective e = false →
  readyState (dispatch b e) = readyState b ∧ qc (dispatch b e) = qc b.
Proof.
  intros Hno. split; [apply dispatch_readyState|].
  unfold Stream.effective in Hno. unfold SSE.dispatch, SSE.listener.
  destruct (readyState b); try done;
    destruct (String.eqb (type e) "workflow_update"); try done;
    simpl in Hno;
    destruct (JSON_parse (data e)) as [[]|]; try done.
Qed.

Lemma receive_cons e frames (b : Bridge) :
  receive (e :: frames) b = receive frames (dispatch b e).
Proof. done. Qed.

(** X1.  The cache a stream leaves depends only on its effective frames,
    those named [workflow_update] whose payload decodes to a value other
    than [null], taken in arrival order; frames with another event name,
    undecodable frames and [null] payloads change neither the cache nor the
    state of the source. *)
Theorem receive_effective_only frames (b : Bridge) :
  readyState (receive frames b) = readyState b
  ∧ qc (receive frames b) = qc (receive (List.filter effective frames) b).
Proof.
  split; [apply receive_readyState|].
  revert b. induction frames as [|e frames IH]; intros b; [done|].
  rewrite receive_cons. simpl.
  destruct (effective e) eqn:Heff.
  - rewrite receive_cons. apply IH.
  - destruct (dispatch_ineffective b e Heff) as [Hrs Hqc].
    rewrite IH. by apply receive_cache_ext.
Qed.

(** X2.  Delivering the same payload a second time leaves the cache
    exactly as the first delivery left it. *)
Theorem delta_idempotent data (qc qc1 : gmap string JSON) :
  workflow_update data qc = inr qc1 →
  workflow_update data qc1 = inr qc1.
Proof.
  intros Hfirst. apply workflow_update_inv in Hfirst as (id & Hid & ->).
  unfold SSE.workflow_update. rewrite Hid. f_equal.
  unfold SSE.setQueryData. rewrite lookup_insert_eq, updater_twice.
  apply insert_insert_eq.
Qed.

(** X3.  A delta writes the one slot of its key: every other slot of the
    cache keeps its content, and the only slot that can be new is that
    one. *)
Theorem delta_touches_one_slot data id (qc qc' : gmap string JSON) :
  read_id data = inr id →
  workflow_update data qc = inr qc' →
  (∀ h, h ≠ hashKey (workflow_key id) → qc' !! h = qc !! h)
  ∧ dom qc' = {[ hashKey (workflow_key id) ]} ∪ dom qc.
Proof.
  intros Hid Hup. unfold SSE.workflow_update in Hup. rewrite Hid in Hup.
  injection Hup as <-. unfold SSE.setQueryData. split.
  - intros h Hne. by apply lookup_insert_ne.
  - apply dom_insert_L.
Qed.

(** X4.  Two object patches for the same id, one after the other, leave
    the cache that the single patch made of the later fields over the
    earlier ones leaves. *)
Theorem deltas_compose (p1 p2 : gmap string JSON) (qc : gmap string JSON) :
  p1 !! "id" = p2 !! "id" →
  ∃ qc1, workflow_update (JObj p1) qc = inr qc1
         ∧ workflow_update (JObj p2) qc1
           = workflow_update (JObj (p2 ∪ p1)) qc.
Proof.
  intros Hsame. eexists. split; [apply workflow_update_object|].
  rewrite !workflow_update_object. f_equal.
  assert ((p2 ∪ p1) !! "id" = p2 !! "id") as ->.
  { rewrite lookup_union. destruct (p2 !! "id") eqn:E2; rewrite Hsame; [|done].
    by rewrite union_Some_l. }
  rewrite Hsame. unfold SSE.setQueryData.
  rewrite lookup_insert_eq, updater_compose. apply insert_insert_eq.
Qed.

(** Once the effect cleanup has closed the source, no frame reaches
    the cache or the event loop. *)
Lemma closed_source_is_silent frames (b : Bridge) :
  receive frames (close b) = close b.
Proof.
  induction frames as [|e frames IH]; [done|].
  rewrite receive_cons. exact IH.
Qed.
End BridgeFacts.

(** ** More on the API client *)

Section RequestFacts.
Import Client.
Context (JSON_parse : string → option JSON).
Context (JSON_stringify : JSON → string).
Context (fetch : Request → option Response).

Local Abbreviation get_request path :=
  {| url := API_BASE +:+ path; method := "GET"; headers := [];
     req_body := None |}.
Local Abbreviation post_request path body :=
  {| url := API_BASE +:+ path; method := "POST";
     headers := [("Content-Type", "application/json")];
     req_body := Some (JSON_stringify body) |}.

Lemma ok_false_range (res : Response) :
  ok res = false ↔ ¬ (200 ≤ status res ≤ 299)%Z.
Proof.
  rewrite <- ok_range. destruct (ok res); split; try done.
Qed.

(** How the promise settles decides what arrived. *)
Lemma await_parse_fulfilled r payload :
  await_parse JSON_parse r = Fulfilled payload ↔
  ∃ res, r = Some res ∧ (200 ≤ status res ≤ 299)%Z
         ∧ JSON_parse (text res) = Some payload.
Proof.
  split.
  - destruct r as [res|]; [|done]. simpl. unfold parse, json.
    destruct (ok res) eqn:Hok; [|done]. simpl.
    destruct (JSON_parse (text res)) as [v|] eqn:Hdec; [|done].
    intros [= ->]. exists res. by rewrite <- ok_range.
  - intros (res & -> & Hin & Hdec). simpl.
    rewrite parse_ok by (by apply ok_range). by apply json_decoded.
Qed.

Lemma await_parse_api_error r e :
  await_parse JSON_parse r = RejectedApi e →
  ¬ (200 ≤ err_status e ≤ 299)%Z
  ∧ ∃ res, r = Some res ∧ err_status e = status res ∧ message e = text res.
Proof.
  destruct r as [res|]; [|done]. simpl. unfold parse, json.
  destruct (ok res) eqn:Hok; simpl.
  - by destruct (JSON_parse (text res)).
  - intros [= <-]. simpl. split; [by apply ok_false_range|by exists res].
Qed.

(** X6.  [apiGet] fulfils with a payload exactly when the GET request to
    [/api] followed by the path was answered, the status of the answer is
    in 200-299 and its body decodes to that payload. *)
Theorem apiGet_fulfilled_iff (path : string) (payload : JSON) :
  apiGet JSON_parse fetch path = Fulfilled payload ↔
  ∃ res, fetch (get_request path) = Some res
         ∧ (200 ≤ status res ≤ 299)%Z
         ∧ JSON_parse (text res) = Some payload.
Proof. unfold apiGet. apply await_parse_fulfilled. Qed.

(** X7.  Neither [apiGet] nor [apiPost] ever rejects with an [ApiError]
    whose status is in 200-299: the error carries the status and the body
    text of the response that came back for that very request. *)
Theorem api_error_is_the_response (path : string) (body : JSON) (e : ApiError) :
  (apiGet JSON_parse fetch path = RejectedApi e →
     ¬ (200 ≤ err_status e ≤ 299)%Z
     ∧ ∃ res, fetch (get_request path) = Some res
              ∧ err_status e = status res ∧ message e = text res)
  ∧ (apiPost JSON_parse JSON_stringify fetch path body = RejectedApi e →
     ¬ (200 ≤ err_status e ≤ 299)%Z
     ∧ ∃ res, fetch (post_request path body) = Some res
              ∧ err_status e = status res ∧ message e = text res).
Proof.
  split; intros Herr; by apply await_parse_api_error in Herr.
Qed.
End RequestFacts.

(** ** More on the notification store *)

Section StoreFacts.
Import UI.

(** X8.  Pushing a toast under an id that is not in the store and removing
    that id again gives back the store as it was. *)
Theorem addToast_removeToast (uuid msg : string) ty (s : UIState) :
  uuid ∉ ids s →
  removeToast uuid (addToast uuid msg ty s) = s.
Proof.
  intros Hfresh. rewrite <- (removeToast_absent uuid s Hfresh) at 2.
  unfold removeToast, addToast. simpl. f_equal.
  rewrite filter_app, filter_cons_False, filter_nil by (simpl; tauto).
  apply app_nil_r.
Qed.

(** X9.  Removals commute: whichever of two timers (or dismissals) runs
    first, the store ends up the same. *)
Theorem removeToast_commute (i j : string) (s : UIState) :
  removeToast i (removeToast j s) = removeToast j (removeToast i s).
Proof.
  unfold removeToast. simpl. f_equal.
  rewrite !list_filter_filter. apply list_filter_iff. tauto.
Qed.
End StoreFacts.

(** ** The timer queue of [Toast] *)

Section QueueFacts.
Import UI Queue.
Context (randomUUID : nat → string).

Local Abbreviation step := (UI.step randomUUID).
Local Abbreviation run := (UI.run randomUUID).

Lemma LIFETIME_pos : 0 < LIFETIME.
Proof. unfold LIFETIME. lia. Qed.

Lemma run_app evs evs' a : run (evs ++ evs') a = run evs' (run evs a).
Proof. unfold UI.run. apply foldl_app. Qed.

Lemma run_cons e evs a : run (e :: evs) a = run evs (step a e).
Proof. done. Qed.

(** After an update that replaces [toasts] every toast has a new timer. *)
Lemma update_toasts_timely f a :
  (∀ t, t ∈ timers a → now a < due t ≤ now a + LIFETIME) →
  timely (update_toasts f a).
Proof.
  intros Hold. pose proof LIFETIME_pos. split.
  - intros t Ht. apply timers_update_toasts in Ht as [Ht|[Hdue _]].
    + by apply Hold.
    + simpl. lia.
  - intros i Hi. exists {| due := now a + LIFETIME; target := i |}.
    split; [|done]. apply timers_update_toasts. right. by split.
Qed.

Lemma timely_mount t0 : timely (mount t0).
Proof.
  split.
  - intros t Ht. by apply elem_of_nil in Ht.
  - intros i Hi. by apply elem_of_nil in Hi.
Qed.

Lemma timely_step a e : timely a → timely (step a e).
Proof.
  intros [Hdue Hcov]. pose proof LIFETIME_pos.
  destruct e as [msg ty|j| |].
  - by apply (update_toasts_timely _
               {| now := now a; store := store a; timers := timers a;
                  drawn := S (drawn a) |}).
  - by apply update_toasts_timely.
  - done.
  - split.
    + intros t Ht. simpl in Ht. simpl. rewrite run_due_now. simpl.
      apply run_due_timers in Ht as [[Ht Hlt]|[Hd _]]; simpl in *.
      * specialize (Hdue t Ht). lia.
      * lia.
    + intros i Hi. simpl in Hi. apply run_due_ids in Hi as [Hi Hno].
      simpl in Hi, Hno. destruct (Hcov i Hi) as (t & Ht & Htg).
      exists t. split; [|done]. apply run_due_timers_keep; [done|]. simpl.
      destruct (decide (due t ≤ S (now a))) as [Hle|Hgt]; [|lia].
      exfalso. apply Hno. by exists t.
Qed.

Lemma timely_run evs a : timely a → timely (run evs a).
Proof.
  revert a. induction evs as [|e evs IH]; intros a Ha; [done|].
  rewrite run_cons. by apply IH, timely_step.
Qed.

(** X10.  In every state the mounted application can reach, no pending
    timer is overdue or more than 5000 ms away, and every toast in the
    store is the target of a pending timer: no toast can stay for good. *)
Theorem timers_timely (t0 : nat) (evs : list Event) :
  timely (run evs (mount t0)).
Proof. apply timely_run, timely_mount. Qed.

(** *** The clock alone *)

Lemma now_ticks n a : now (run (replicate n Tick) a) = now a + n.
Proof.
  revert a. induction n as [|n IH]; intros a; [simpl; lia|].
  cbn [replicate]. rewrite run_cons, IH. simpl. rewrite run_due_now. simpl. lia.
Qed.

Lemma timely_covered a : timely a → covered (now a + LIFETIME) a.
Proof.
  intros [Hdue Hcov] i Hi. destruct (Hcov i Hi) as (t & Ht & Htg).
  exists t. split; [done|]. split; [done|]. by apply Hdue.
Qed.

Lemma covered_tick D a : covered D a → covered D (step a Tick).
Proof.
  intros Hcov i Hi. simpl in Hi. apply run_due_ids in Hi as [Hi Hno].
  simpl in Hi, Hno. destruct (Hcov i Hi) as (t & Ht & Htg & Hlo & Hhi).
  assert (S (now a) < due t) as Hlater.
  { destruct (decide (due t ≤ S (now a))) as [Hle|Hgt]; [|lia].
    exfalso. apply Hno. by exists t. }
  exists t. split; [by apply run_due_timers_keep|]. split; [done|].
  simpl. rewrite run_due_now. simpl. lia.
Qed.

Lemma covered_ticks D n a : covered D a → covered D (run (replicate n Tick) a).
Proof.
  revert a. induction n as [|n IH]; intros a Hcov; [done|].
  cbn [replicate]. rewrite run_cons. by apply IH, covered_tick.
Qed.

Lemma covered_expired D a : covered D a → D ≤ now a → toasts (store a) = [].
Proof.
  intros Hcov Hle. destruct (toasts (store a)) as [|t ts] eqn:Hts; [done|].
  destruct (Hcov (id t)) as (tm & _ & _ & Hlo & Hhi); [|lia].
  unfold ids. rewrite Hts. simpl. apply elem_of_cons. by left.
Qed.

(** With no toast in the store a tick only drops the timers that ran. *)
Lemma tick_empty_store a t :
  toasts (store a) = [] →
  toasts (store (step a Tick)) = []
  ∧ (t ∈ timers (step a Tick) → t ∈ timers a ∧ S (now a) < due t).
Proof.
  intros Hempty.
  assert (ids (store a) = []) as Hids by (unfold ids; by rewrite Hempty).
  split.
  - destruct (toasts (store (step a Tick))) as [|x xs] eqn:Hts; [done|].
    assert (id x ∈ ids (store (step a Tick))) as Hx.
    { unfold ids. rewrite Hts. simpl. apply elem_of_cons. by left. }
    simpl in Hx. apply run_due_ids in Hx as [Hx _]. simpl in Hx.
    rewrite Hids in Hx. by apply elem_of_nil in Hx.
  - intros Ht. simpl in Ht.
    apply run_due_timers in Ht as [[Ht Hlt]|[_ Htg]]; simpl in *; [done|].
    rewrite Hids in Htg. by apply elem_of_nil in Htg.
Qed.

Lemma idle_ticks D n a :
  toasts (store a) = [] →
  (∀ t, t ∈ timers a → now a < due t ≤ D) →
  toasts (store (run (replicate n Tick) a)) = []
  ∧ (∀ t, t ∈ timers (run (replicate n Tick) a) → now a + n < due t ≤ D).
Proof.
  revert a. induction n as [|n IH]; intros a Hempty Hdue.
  - split; [done|]. intros t Ht. specialize (Hdue t Ht). simpl in *. lia.
  - cbn [replicate]. rewrite run_cons.
    destruct (IH (step a Tick)) as [Hst Htm].
    + by apply (tick_empty_store a {| due := 0; target := "" |}).
    + intros t Ht. simpl. rewrite run_due_now. simpl.
      apply (tick_empty_store a t Hempty) in Ht as [Ht Hlt].
      specialize (Hdue t Ht). lia.
    + split; [done|]. intros t Ht. specialize (Htm t Ht).
      simpl in Htm. rewrite run_due_now in Htm. simpl in Htm. lia.
Qed.

(** X11.  The timers do not feed themselves for ever: from any reachable
    state, two lifetimes of clock ticks with no push and no dismissal leave
    no toast in the store and no pending timer. *)
Theorem queue_drains (t0 : nat) (evs : list Event) :
  let a' := run (replicate (LIFETIME + LIFETIME) Tick) (run evs (mount t0)) in
  toasts (store a') = [] ∧ timers a' = [].
Proof.
  intros a'. set (a := run evs (mount t0)).
  assert (timely a) as Ha by apply timely_run, timely_mount.
  set (a1 := run (replicate LIFETIME Tick) a).
  assert (a' = run (replicate LIFETIME Tick) a1) as Ha'.
  { unfold a', a1. fold a. by rewrite replicate_add, run_app. }
  assert (now a1 = now a + LIFETIME) as Hnow1 by apply now_ticks.
  assert (timely a1) as [Hdue1 _] by (by apply timely_run).
  assert (toasts (store a1) = []) as Hempty1.
  { apply (covered_expired (now a + LIFETIME)); [|lia].
    by apply covered_ticks, timely_covered. }
  destruct (idle_ticks (now a1 + LIFETIME) LIFETIME a1 Hempty1 Hdue1)
    as [Hst Htm].
  rewrite Ha'. split; [done|].
  destruct (timers (run (replicate LIFETIME Tick) a1)) as [|t ts]; [done|].
  assert (t ∈ t :: ts) as Hin by (apply elem_of_cons; by left).
  specialize (Htm t Hin). lia.
Qed.

(** *** Pushes at one instant *)

Lemma push_lengths a msg ty :
  length (toasts (store (step a (Push msg ty)))) = S (length (toasts (store a)))
  ∧ length (timers (step a (Push msg ty)))
    = length (timers a) + S (length (toasts (store a))).
Proof.
  simpl. rewrite !length_app, length_fmap, length_app. simpl. lia.
Qed.

Lemma pushes_lengths evs a :
  Forall is_push evs →
  length (toasts (store (run evs a))) = length (toasts (store a)) + length evs
  ∧ 2 * length (timers (run evs a))
    = 2 * length (timers a)
      + 2 * length evs * length (toasts (store a))
      + length evs * S (length evs).
Proof.
  intros Hall. revert a.
  induction Hall as [|e evs (msg & ty & ->) _ IH]; intros a.
  - simpl. lia.
  - rewrite run_cons. destruct (IH (step a (Push msg ty))) as [IHt IHq].
    destruct (push_lengths a msg ty) as [Ht Hq].
    rewrite IHt, IHq, Ht, Hq. simpl length. split; [lia|nia].
Qed.

Lemma is_push_as_events pushes : Forall is_push (Batch.as_events pushes).
Proof.
  unfold Batch.as_events. apply Forall_fmap, Forall_forall.
  intros [msg ty] _. by exists msg, ty.
Qed.

Lemma length_add_all n pushes s :
  length (toasts (Batch.add_all randomUUID n pushes s))
  = length (toasts s) + length pushes.
Proof.
  revert n s. induction pushes as [|[msg ty] pushes IH]; intros n s; simpl.
  - lia.
  - rewrite IH. simpl. rewrite length_app. simpl. lia.
Qed.

(** Rendered together or one by one, the same toasts reach the store. *)
Lemma store_as_events pushes a :
  store (run (Batch.as_events pushes) a)
  = Batch.add_all randomUUID (drawn a) pushes (store a).
Proof.
  revert a. induction pushes as [|[msg ty] pushes IH]; intros a; [done|].
  change (Batch.as_events ((msg, ty) :: pushes))
    with (Push msg ty :: Batch.as_events pushes).
  rewrite run_cons, IH. done.
Qed.

Lemma push_batch_lengths pushes a :
  pushes ≠ [] →
  length (timers (Batch.push_batch randomUUID pushes a))
  = length (timers a) + (length (toasts (store a)) + length pushes).
Proof.
  intros Hne. destruct pushes as [|p pushes]; [done|].
  unfold Batch.push_batch, effect. cbn [timers store now].
  by rewrite length_app, length_fmap, length_add_all.
Qed.

(** X12.  The effect sets one timer for every toast in the store at each
    render and has no cleanup.  Pushes made within one task are rendered
    together and leave one timer per toast; the same pushes, each made in
    a task of its own and so rendered one by one, put the same toasts in
    the store but leave [n (n + 1) / 2] timers for [n] toasts. *)
Theorem timers_per_render (t0 : nat)
    (pushes : list (string * option ToastType)) :
  let together := Batch.push_batch randomUUID pushes (mount t0) in
  let one_by_one := run (Batch.as_events pushes) (mount t0) in
  store together = store one_by_one
  ∧ length (toasts (store together)) = length pushes
  ∧ length (timers together) = length pushes
  ∧ 2 * length (timers one_by_one) = length pushes * S (length pushes).
Proof.
  intros together one_by_one.
  assert (store together = store one_by_one) as Hstore.
  { unfold one_by_one. rewrite store_as_events.
    unfold together. by destruct pushes. }
  assert (length (toasts (store together)) = length pushes) as Htoasts.
  { rewrite Hstore. unfold one_by_one.
    rewrite store_as_events, length_add_all. simpl. lia. }
  split; [done|]. split; [done|]. split.
  - destruct pushes as [|p pushes]; [done|].
    unfold together. rewrite push_batch_lengths by done. simpl. lia.
  - destruct (pushes_lengths (Batch.as_events pushes) (mount t0)
                (is_push_as_events pushes)) as [_ Hq].
    unfold one_by_one. unfold Batch.as_events in *.
    rewrite length_fmap in Hq. simpl in Hq. lia.
Qed.
End QueueFacts.

(** ** More on the preference store *)

Section DensityFacts.
Import Prefs.
Context (JSON_stringify : JSON → string).

Local Abbreviation setDensity := (Prefs.setDensity JSON_stringify).

(** X14.  The last [setDensity] wins: a call made after another leaves the
    process, state and storage, as if it had been the only one. *)
Theorem setDensity_last_wins (d1 d2 : Density) (p : Process) :
  setDensity d2 (setDensity d1 p) = setDensity d2 p.
Proof.
  unfold Prefs.setDensity, Prefs.set. cbn [state localStorage].
  assert (({[ "tableDensity" := JStr (density_text d2) ]} : gmap string JSON)
            ∪ ({[ "tableDensity" := JStr (density_text d1) ]} ∪ state p)
          = {[ "tableDensity" := JStr (density_text d2) ]} ∪ state p) as ->.
  { rewrite <- !insert_union_singleton_l. apply insert_insert_eq. }
  f_equal. apply insert_insert_eq.
Qed.
End DensityFacts.

(** ** The dashboard page *)

Section DashboardFacts.
Import JS Dashboard.

Lemma has_status_value wanted x :
  x ≠ JNull → has_status wanted x = inr (status_is wanted x).
Proof.
  intros Hx. unfold has_status, status_is, member.
  destruct x; try done.
  simpl. by destruct (fields !! "status") as [[]|].
Qed.

(** Without [null] among the items nothing throws and the matches are
    counted. *)
Lemma count_where_status wanted items :
  JNull ∉ items →
  count_where (has_status wanted) items
  = inr (length (List.filter (status_is wanted) items)).
Proof.
  induction items as [|x items IH]; intros Hnull; [done|].
  apply not_elem_of_cons in Hnull as [Hx Hnull]. simpl.
  rewrite has_status_value, IH by done.
  by destruct (status_is wanted x).
Qed.

(** A [null] item makes the callback throw. *)
Lemma count_where_null wanted items :
  JNull ∈ items → count_where (has_status wanted) items = inl TypeError.
Proof.
  induction items as [|x items IH]; intros Hnull;
    [by apply elem_of_nil in Hnull|].
  simpl. apply elem_of_cons in Hnull as [<-|Hnull]; [done|].
  destruct x; [done|..]; rewrite has_status_value by done; by rewrite IH.
Qed.

Lemma filter_length_status wanted (v : option JSON) :
  (v = None → filter_length (has_status wanted) (or_nil v) = inr 0)
  ∧ (∀ items, v = Some (JArr items) →
       (JNull ∉ items →
          filter_length (has_status wanted) (or_nil v)
          = inr (length (List.filter (status_is wanted) items)))
       ∧ (JNull ∈ items →
          filter_length (has_status wanted) (or_nil v) = inl TypeError)).
Proof.
  split; [by intros ->|]. intros items ->. simpl. split.
  - apply count_where_status.
  - apply count_where_null.
Qed.

(** X15.  The two counters of the page, active campaigns and completed
    executions: a payload without the list counts as 0, a list without
    [null] is counted exactly (the items whose [status] is the wanted
    string, never more than the list is long), and a list that holds a
    [null] makes the render throw. *)
Theorem dashboard_counters (data : option JSON) :
  (optional "campaigns" data = None → activeCampaigns data = inr 0)
  ∧ (optional "executions" data = None → completed data = inr 0)
  ∧ (∀ items, optional "campaigns" data = Some (JArr items) →
       (JNull ∉ items →
          ∃ n, activeCampaigns data = inr n
               ∧ n = length (List.filter (status_is "active") items)
               ∧ n ≤ length items)
       ∧ (JNull ∈ items → activeCampaigns data = inl TypeError))
  ∧ (∀ items, optional "executions" data = Some (JArr items) →
       (JNull ∉ items →
          ∃ n, completed data = inr n
               ∧ n = length (List.filter (status_is "completed") items)
               ∧ n ≤ length items)
       ∧ (JNull ∈ items → completed data = inl TypeError)).
Proof.
  unfold activeCampaigns, completed.
  destruct (filter_length_status "active" (optional "campaigns" data))
    as [Hc0 Hc].
  destruct (filter_length_status "completed" (optional "executions" data))
    as [He0 He].
  split; [done|]. split; [done|]. split.
  - intros items Hitems. destruct (Hc items Hitems) as [Hcount Hthrow].
    split; [|done]. intros Hnull. eexists. split; [by apply Hcount|].
    split; [done|]. apply List.filter_length_le.
  - intros items Hitems. destruct (He items Hitems) as [Hcount Hthrow].
    split; [|done]. intros Hnull. eexists. split; [by apply Hcount|].
    split; [done|]. apply List.filter_length_le.
Qed.

(** *** The spend chart *)

Lemma point_value i p :
  p ≠ JNull →
  point i p =
    inr {| name := or_else (optional "dsp" (Some p))
                     (JStr ("P" +:+ pretty (S i)));
           value := or_else (optional "spent" (Some p)) (JNum 0) |}.
Proof. intros Hp. unfold point, member. by destruct p. Qed.

Lemma map_points_rows i rows :
  JNull ∉ rows →
  ∃ pts, map_points i rows = inr pts
         ∧ length pts = length rows
         ∧ ∀ k p, rows !! k = Some p →
             pts !! k =
               Some {| name := or_else (optional "dsp" (Some p))
                                 (JStr ("P" +:+ pretty (S (i + k))));
                       value := or_else (optional "spent" (Some p))
                                  (JNum 0) |}.
Proof.
  revert i. induction rows as [|p rows IH]; intros i Hnull.
  - exists []. by split.
  - apply not_elem_of_cons in Hnull as [Hp Hnull].
    destruct (IH (S i) Hnull) as (pts & Hpts & Hlen & Hat).
    eexists. simpl. rewrite point_value, Hpts by done.
    split; [done|]. split; [simpl; by rewrite Hlen|].
    intros [|k] q Hq; simpl in *.
    + injection Hq as <-. by rewrite Nat.add_0_r.
    + rewrite (Hat k q Hq). by rewrite Nat.add_succ_r.
Qed.

(** The chart expression on its own: a payload without pacing rows gives
    no point; rows of which the first eight are not [null] give as many
    points as rows, at most 8, row [i] labelled with its [dsp], or with
    "P" and [i + 1] when it has none or an empty one, and valued with its
    [spent], or 0. *)
Lemma chart_rows (data : option JSON) :
  (optional "pacing" (optional "pacing" data) = None → chart data = inr [])
  ∧ (∀ rows,
       optional "pacing" (optional "pacing" data) = Some (JArr rows) →
       JNull ∉ take 8 rows →
       ∃ pts, chart data = inr pts
              ∧ length pts = length rows `min` 8
              ∧ ∀ i p, i < 8 → rows !! i = Some p →
                  pts !! i =
                    Some {| name := or_else (optional "dsp" (Some p))
                                      (JStr ("P" +:+ pretty (S i)));
                            value := or_else (optional "spent" (Some p))
                                       (JNum 0) |}).
Proof.
  unfold chart. split; [by intros ->|].
  intros rows -> Hnull. cbn [or_nil truthy].
  destruct (map_points_rows 0 (take 8 rows) Hnull) as (pts & Hpts & Hlen & Hat).
  exists pts. split; [done|]. split; [rewrite Hlen, length_take; lia|].
  intros i p Hi Hrow. apply (Hat i p). by rewrite lookup_take_lt.
Qed.
(** *** The chart within the page *)

Lemma member_throws name p e : member name p = inl e → e = TypeError.
Proof. destruct p; simpl; congruence. Qed.

Lemma count_where_throws wanted items e :
  count_where (has_status wanted) items = inl e → e = TypeError.
Proof.
  induction items as [|x items IH]; simpl; [done|].
  destruct x; [by intros [= <-]|..]; rewrite has_status_value by done;
    (destruct (count_where (has_status wanted) items) as [e'|k];
     [intros [= <-]; by apply IH|done]).
Qed.

Lemma filter_length_throws wanted v e :
  filter_length (has_status wanted) v = inl e → e = TypeError.
Proof.
  destruct v; simpl; try (by intros [= <-]). apply count_where_throws.
Qed.

Lemma rate_throws data e : rate data = inl e → e = TypeError.
Proof.
  unfold rate. destruct (completed data) as [e'|n] eqn:Hc.
  - intros [= <-]. by apply filter_length_throws in Hc.
  - by destruct (optional "executions" data) as [[]|].
Qed.

Lemma to_primitive_throws v e : Page.to_primitive v = inl e → e = TypeError.
Proof. unfold Page.to_primitive. destruct (Page.convertible v); congruence. Qed.

Lemma add_spent_throws p e : Page.add_spent p = inl e → e = TypeError.
Proof.
  unfold Page.add_spent. destruct (member "spent" p) as [e'|v] eqn:Hm.
  - intros [= <-]. by apply member_throws in Hm.
  - apply to_primitive_throws.
Qed.

Lemma out_of_pace_throws p e : Page.out_of_pace p = inl e → e = TypeError.
Proof.
  unfold Page.out_of_pace.
  destruct (member "pacingPercent" p) as [e'|[v|]] eqn:Hm; [| |done].
  - intros [= <-]. by apply member_throws in Hm.
  - apply to_primitive_throws.
Qed.

Section Callback.
Context (callback : JSON → Exn + unit).
Context (callback_throws : ∀ p e, callback p = inl e → e = TypeError).
Context (callback_null : callback JNull = inl TypeError).

Lemma for_each_throws rows e :
  Page.for_each callback rows = inl e → e = TypeError.
Proof.
  induction rows as [|p rows IH]; simpl; [done|].
  destruct (callback p) as [e'|v] eqn:Hc; [|done].
  intros [= <-]. by apply callback_throws in Hc.
Qed.

Lemma each_row_throws v e :
  Page.each_row callback v = inl e → e = TypeError.
Proof.
  destruct v; simpl; try (by intros [= <-]). apply for_each_throws.
Qed.

Lemma for_each_returns rows :
  Page.for_each callback rows = inr () ↔
  Forall (λ p, callback p = inr ()) rows.
Proof.
  induction rows as [|p rows IH]; simpl; [split; [by constructor|done]|].
  rewrite Forall_cons, <- IH.
  destruct (callback p) as [e|[]]; [split; [done|by intros [? _]]|].
  split; [done|tauto].
Qed.

Lemma for_each_null rows :
  JNull ∈ rows → Page.for_each callback rows = inl TypeError.
Proof.
  intros Hnull.
  destruct (Page.for_each callback rows) as [e|[]] eqn:Hrun;
    [by rewrite (for_each_throws rows e Hrun)|].
  apply for_each_returns in Hrun. rewrite Forall_forall in Hrun.
  specialize (Hrun JNull Hnull). congruence.
Qed.
End Callback.

(** Every exception of the page body is a [TypeError]. *)
Lemma spend_chart_throws data e :
  Page.spend_chart data = inl e → e = TypeError.
Proof.
  unfold Page.spend_chart, activeCampaigns.
  destruct (filter_length _ _) as [e1|n] eqn:H1;
    [intros [= <-]; by apply filter_length_throws in H1|].
  destruct (Page.each_row Page.add_spent _) as [e2|[]] eqn:H2;
    [intros [= <-]; by apply (each_row_throws _ add_spent_throws) in H2|].
  destruct (rate data) as [e3|r] eqn:H3;
    [intros [= <-]; by apply rate_throws in H3|].
  destruct (Page.each_row Page.out_of_pace _) as [e4|[]] eqn:H4;
    [intros [= <-]; by apply (each_row_throws _ out_of_pace_throws) in H4|].
  unfold chart.
  destruct (or_nil (optional "pacing" (optional "pacing" data)))
    as [| | | |rows|]; try (by intros [= <-]).
  generalize 0 (take 8 rows). intros i l. revert i.
  induction l as [|p l IH]; intros i; simpl; [done|].
  unfold point.
  destruct (member "dsp" p) as [e5|dsp] eqn:H5;
    [intros [= <-]; by apply member_throws in H5|].
  destruct (member "spent" p) as [e6|spent] eqn:H6;
    [intros [= <-]; by apply member_throws in H6|].
  destruct (map_points (S i) l) as [e7|pts] eqn:H7; [|done].
  intros [= <-]. by apply (IH (S i)).
Qed.

Lemma readable_not_null rows : Forall Page.readable rows → JNull ∉ rows.
Proof.
  intros Hall Hnull. rewrite Forall_forall in Hall.
  by destruct (Hall JNull Hnull) as [Hspent _].
Qed.

(** X16.  The chart of the page shows the first eight pacing rows and no
    more: when the render gets to it, it has as many points as there are
    rows, at most 8, row [i] labelled with its [dsp], or with "P" and
    [i + 1] when it has none or an empty one, and valued with its [spent],
    or 0.  The render gets to it when the counters before it return and
    every pacing row can be read by the total and by the alerts card; a
    [null] row anywhere, also after the eighth, makes the render throw a
    [TypeError], since the total reads every row first.  Without pacing
    rows the chart is empty. *)
Theorem spend_chart_first_eight (data : option JSON) :
  (∀ rows,
     optional "pacing" (optional "pacing" data) = Some (JArr rows) →
     (JNull ∈ rows → Page.spend_chart data = inl TypeError)
     ∧ (∀ pts, Page.spend_chart data = inr pts →
          length pts = length rows `min` 8
          ∧ ∀ i p, i < 8 → rows !! i = Some p →
              pts !! i =
                Some {| name := or_else (optional "dsp" (Some p))
                                  (JStr ("P" +:+ pretty (S i)));
                        value := or_else (optional "spent" (Some p))
                                   (JNum 0) |})
     ∧ (Forall Page.readable rows →
        ∀ n r, activeCampaigns data = inr n → rate data = inr r →
          ∃ pts, Page.spend_chart data = inr pts))
  ∧ (optional "pacing" (optional "pacing" data) = None →
     ∀ n r, activeCampaigns data = inr n → rate data = inr r →
       Page.spend_chart data = inr []).
Proof.
  split.
  - intros rows Hrows.
    assert (Page.pacing data = JArr rows) as Hpacing.
    { unfold Page.pacing. by rewrite Hrows. }
    assert (∀ l : list JSON, JNull ∉ l → JNull ∉ take 8 l) as Htake.
    { intros l Hl Hin. apply Hl. by apply (subseteq_take 8 l). }
    split; [|split].
    + intros Hnull.
      destruct (Page.spend_chart data) as [e|pts] eqn:Hrender;
        [by rewrite (spend_chart_throws data e Hrender)|].
      exfalso. unfold Page.spend_chart in Hrender.
      destruct (activeCampaigns data); [done|].
      rewrite Hpacing in Hrender. cbn [Page.each_row] in Hrender.
      by rewrite (for_each_null _ add_spent_throws eq_refl rows Hnull)
        in Hrender.
    + intros pts Hrender. unfold Page.spend_chart in Hrender.
      destruct (activeCampaigns data); [done|].
      rewrite Hpacing in Hrender. cbn [Page.each_row] in Hrender.
      destruct (Page.for_each Page.add_spent rows) as [e|[]] eqn:Hread;
        [done|].
      assert (JNull ∉ rows) as Hnull.
      { intros Hin.
        by rewrite (for_each_null _ add_spent_throws eq_refl rows Hin)
          in Hread. }
      destruct (rate data); [done|].
      destruct (Page.for_each Page.out_of_pace rows) as [e|[]]; [done|].
      destruct (proj2 (chart_rows data) rows Hrows (Htake rows Hnull))
        as (pts' & Hpts' & Hlen & Hat).
      rewrite Hpts' in Hrender. injection Hrender as <-. by split.
    + intros Hall n r Hac Hrate. unfold Page.spend_chart.
      rewrite Hac, Hrate, Hpacing. cbn [Page.each_row].
      rewrite (proj2 (for_each_returns Page.add_spent rows)),
              (proj2 (for_each_returns Page.out_of_pace rows)).
      * destruct (proj2 (chart_rows data) rows Hrows
                    (Htake rows (readable_not_null rows Hall)))
          as (pts & Hpts & _).
        by exists pts.
      * eapply Forall_impl; [exact Hall|]. by intros p [_ Hpace].
      * eapply Forall_impl; [exact Hall|]. by intros p [Hspent _].
  - intros Hnone n r Hac Hrate. unfold Page.spend_chart, Page.pacing.
    rewrite Hac, Hrate, Hnone. cbn [or_nil Page.each_row Page.for_each].
    by apply (proj1 (chart_rows data)).
Qed.
End DashboardFacts.

(** ** Fields on file and keys on screen *)

Section FieldFacts.
Import JS SSE.
Context (JSON_parse : string → option JSON).
Context (hashKey : QueryKey → string).

Local Abbreviation workflow_update := (SSE.workflow_update hashKey).
Local Abbreviation dispatch := (SSE.dispatch JSON_parse hashKey).
Local Abbreviation receive := (SSE.receive JSON_parse hashKey).

Lemma workflow_update_fields data (qc qc' : gmap string JSON) h m :
  workflow_update data qc = inr qc' →
  qc !! h = Some (JObj m) →
  ∃ m', qc' !! h = Some (JObj m') ∧ dom m ⊆ dom m'.
Proof.
  intros Hup Hm. apply workflow_update_inv in Hup as (id & _ & ->).
  unfold SSE.setQueryData.
  destruct (decide (hashKey (workflow_key id) = h)) as [<-|Hne].
  - rewrite lookup_insert_eq, Hm. eexists. split; [reflexivity|].
    cbn [or_empty truthy spread]. rewrite dom_union_L. set_solver.
  - rewrite lookup_insert_ne by done. by exists m.
Qed.

Lemma dispatch_fields (b : Bridge) e h m :
  qc b !! h = Some (JObj m) →
  ∃ m', qc (dispatch b e) !! h = Some (JObj m') ∧ dom m ⊆ dom m'.
Proof.
  intros Hm. unfold SSE.dispatch, SSE.listener.
  destruct (readyState b); try (by exists m);
    destruct (String.eqb (type e) "workflow_update"); try (by exists m);
    destruct (JSON_parse (data e)) as [d|]; try (by exists m);
    destruct (workflow_update d (qc b)) as [ex|qc'] eqn:Hup;
    try (by exists m); by apply (workflow_update_fields d (qc b)).
Qed.

(** X5.  The stream never takes a field away: an object on file stays an
    object through any sequence of frames and keeps every field name it
    has; frames only add fields or overwrite their values. *)
Theorem fields_never_removed frames (b : Bridge) h m :
  qc b !! h = Some (JObj m) →
  ∃ m', qc (receive frames b) !! h = Some (JObj m') ∧ dom m ⊆ dom m'.
Proof.
  revert b m. induction frames as [|e frames IH]; intros b m Hm.
  - by exists m.
  - destruct (dispatch_fields b e h m Hm) as (m1 & Hm1 & Hsub1).
    destruct (IH (dispatch b e) m1 Hm1) as (m' & Hm' & Hsub).
    exists m'. split; [done|]. set_solver.
Qed.
End FieldFacts.

Section KeyFacts.
Import UI ToastView.
Context (randomUUID : nat → string).
Context (uuid_unique : Inj (=) (=) randomUUID).

Local Abbreviation step := (UI.step randomUUID).
Local Abbreviation run := (UI.run randomUUID).
Local Abbreviation well_formed := (UI.well_formed randomUUID).

Lemma children_keys s : (children s).*1 = ids s.
Proof. unfold children, ids. rewrite <- list_fmap_compose. done. Qed.

Lemma ids_removeToast i s :
  ids (removeToast i s) = filter (λ j, j ≠ i) (ids s).
Proof.
  unfold ids, removeToast. simpl.
  induction (toasts s) as [|t ts IH]; [done|].
  rewrite fmap_cons. destruct (decide (id t ≠ i)) as [Hne|Heq].
  - rewrite !filter_cons_True by done. by rewrite fmap_cons, IH.
  - by rewrite !filter_cons_False by done.
Qed.

Lemma NoDup_removeToast i s : NoDup (ids s) → NoDup (ids (removeToast i s)).
Proof. intros Hnd. rewrite ids_removeToast. by apply NoDup_filter. Qed.

Lemma NoDup_foldl_fire l a :
  NoDup (ids (store a)) → NoDup (ids (store (foldl fire a l))).
Proof.
  revert a. induction l as [|t l IH]; intros a Hnd; [done|].
  simpl. apply IH. unfold fire. simpl. by apply NoDup_removeToast.
Qed.

Lemma NoDup_step a e :
  well_formed a → NoDup (ids (store a)) → NoDup (ids (store (step a e))).
Proof.
  intros [Hids _] Hnd. destruct e as [msg ty|j| |]; simpl.
  - rewrite ids_addToast. apply NoDup_app. split; [done|].
    split; [|apply NoDup_singleton].
    intros x Hx Hu. apply list_elem_of_singleton in Hu as ->.
    apply Hids in Hx as (n & Hn & Heq). apply uuid_unique in Heq. lia.
  - by apply NoDup_removeToast.
  - done.
  - unfold run_due. by apply NoDup_foldl_fire.
Qed.

(** X13.  The React keys of the rendered toasts are pairwise distinct in
    every state the mounted application can reach, as long as
    [crypto.randomUUID] does not repeat itself. *)
Theorem toast_keys_distinct (t0 : nat) (evs : list Event) :
  NoDup (children (store (run evs (mount t0)))).*1.
Proof.
  rewrite children_keys.
  assert (∀ a, well_formed a → NoDup (ids (store a)) →
               NoDup (ids (store (run evs a)))) as Hrun.
  { induction evs as [|e evs IH]; intros a Hwf Hnd; [done|].
    change (run (e :: evs) a) with (run evs (step a e)).
    apply IH; [by apply well_formed_step|by apply NoDup_step]. }
  apply Hrun; [apply well_formed_mount|apply NoDup_nil_2].
Qed.
End KeyFacts.

Section RateFacts.
Import JS Dashboard.

Lemma count_where_inr wanted items n :
  count_where (has_status wanted) items = inr n →
  n = length (List.filter (status_is wanted) items).
Proof.
  revert n. induction items as [|x items IH]; intros n; simpl.
  - by intros [= <-].
  - destruct x; [done|..]; rewrite has_status_value by done;
      (destruct (count_where (has_status wanted) items) as [e|k]; [done|]);
      intros [= <-]; pose proof (IH k eq_refl) as Hk;
      first [ simpl; lia | destruct (status_is wanted _); simpl; lia ].
Qed.

(** X17.  The success rate is the quotient of two counts only when there
    are executions: then the total is the length of the list, it is not 0,
    and the finished ones, those with status [completed], are no more than
    the total; with no executions or an empty list the rate is the
    constant 0. *)
Theorem rate_guard (data : option JSON) :
  (∀ finished total, rate data = inr (Percent finished total) →
     0 < total ∧ finished ≤ total
     ∧ ∃ items, optional "executions" data = Some (JArr items)
                ∧ total = length items
                ∧ finished
                  = length (List.filter (status_is "completed") items))
  ∧ (optional "executions" data = None → rate data = inr Zero)
  ∧ (optional "executions" data = Some (JArr []) → rate data = inr Zero).
Proof.
  unfold rate, completed. split; [|split].
  - intros finished total.
    destruct (optional "executions" data) as [v|]; [|done].
    destruct v as [|b|n|s|items|fields];
      try (by destruct (filter_length _ _)).
    cbn [or_nil truthy filter_length].
    destruct (count_where (has_status "completed") items) as [e|c] eqn:Hc;
      [done|].
    destruct items as [|x items]; [done|]. intros [= <- <-].
    apply count_where_inr in Hc. split; [simpl; lia|].
    split; [rewrite Hc; apply List.filter_length_le|].
    by exists (x :: items).
  - by intros ->.
  - by intros ->.
Qed.
End RateFacts.

(** ** More worked examples *)

Section MoreExamples.
Import JS SSE Demo Samples.

Local Abbreviation parse := JSONText.parse.
Local Abbreviation stringify := JSONText.stringify.

(** A stream with every kind of ignored frame in it. *)
Example effective_frames_of_mixed_stream :
  List.filter (Stream.effective parse)
    [frame1; heartbeat; frame2; null_frame; frame3]
  = [frame1; frame3].
Proof. by vm_compute. Qed.

Lemma delta_idempotent_witness :
  let qc1 := setQueryData text_hash ∅ (workflow_key (Some (JNum 7)))
               (updater (JObj running)) in
  workflow_update text_hash (JObj running) ∅ = inr qc1
  ∧ workflow_update text_hash (JObj running) qc1 = inr qc1.
Proof.
  intros qc1.
  assert (workflow_update text_hash (JObj running) ∅ = inr qc1) as Hfirst
    by reflexivity.
  split; [done|]. apply (delta_idempotent text_hash _ _ _ Hfirst).
Defined.

Lemma delta_touches_one_slot_witness :
  let qc0 : gmap string JSON := {[ "[dashboard]" := JObj ∅ ]} in
  let qc1 := setQueryData text_hash qc0 (workflow_key (Some (JNum 7)))
               (updater (JObj running)) in
  read_id (JObj running) = inr (Some (JNum 7))
  ∧ workflow_update text_hash (JObj running) qc0 = inr qc1
  ∧ "[dashboard]" ≠ text_hash (workflow_key (Some (JNum 7)))
  ∧ qc1 !! "[dashboard]" = qc0 !! "[dashboard]".
Proof.
  intros qc0 qc1.
  assert (read_id (JObj running) = inr (Some (JNum 7))) as Hid by reflexivity.
  assert (workflow_update text_hash (JObj running) qc0 = inr qc1) as Hup
    by reflexivity.
  assert ("[dashboard]" ≠ text_hash (workflow_key (Some (JNum 7)))) as Hne
    by (by vm_compute).
  split; [done|]. split; [done|]. split; [done|].
  apply (proj1 (delta_touches_one_slot text_hash _ _ _ _ Hid Hup) _ Hne).
Defined.

Lemma deltas_compose_witness :
  running !! "id" = progress !! "id"
  ∧ ∃ qc1, workflow_update text_hash (JObj running) ∅ = inr qc1
           ∧ workflow_update text_hash (JObj progress) qc1
             = workflow_update text_hash (JObj (progress ∪ running)) ∅.
Proof.
  assert (running !! "id" = progress !! "id") as Hsame by reflexivity.
  split; [done|]. apply (deltas_compose text_hash running progress ∅ Hsame).
Defined.

Lemma fields_never_removed_witness :
  let b := receive parse text_hash [frame1] (useSSE ∅) in
  let h := text_hash (workflow_key (Some (JNum 7))) in
  qc b !! h = Some (JObj running)
  ∧ ∃ m', qc (receive parse text_hash [frame2; frame3; null_frame] b) !! h
          = Some (JObj m')
          ∧ dom running ⊆ dom m'.
Proof.
  intros b h.
  assert (qc b !! h = Some (JObj running)) as Hm by (by vm_compute).
  split; [done|].
  apply (fields_never_removed parse text_hash _ b h running Hm).
Defined.

Lemma apiGet_fulfilled_iff_witness :
  (∃ res, network {| Client.url := Client.API_BASE +:+ "/dashboard";
                     Client.method := "GET"; Client.headers := [];
                     Client.req_body := None |} = Some res
          ∧ (200 ≤ Client.status res ≤ 299)%Z
          ∧ parse (Client.text res) = Some dashboard)
  ∧ Client.apiGet parse network "/dashboard" = Client.Fulfilled dashboard.
Proof.
  assert (∃ res, network {| Client.url := Client.API_BASE +:+ "/dashboard";
                            Client.method := "GET"; Client.headers := [];
                            Client.req_body := None |} = Some res
                 ∧ (200 ≤ Client.status res ≤ 299)%Z
                 ∧ parse (Client.text res) = Some dashboard) as Hres.
  { eexists. split; [reflexivity|]. split; [simpl; lia|by vm_compute]. }
  split; [done|].
  apply (proj2 (apiGet_fulfilled_iff parse network "/dashboard" dashboard) Hres).
Defined.

Lemma api_error_is_the_response_witness :
  let e := {| Client.err_status := 503; Client.message := "maintenance" |} in
  Client.apiGet parse unavailable "/campaigns" = Client.RejectedApi e
  ∧ ¬ (200 ≤ Client.err_status e ≤ 299)%Z.
Proof.
  intros e.
  assert (Client.apiGet parse unavailable "/campaigns" = Client.RejectedApi e)
    as Herr by reflexivity.
  split; [done|].
  apply (proj1 (api_error_is_the_response parse stringify unavailable
                  "/campaigns" JNull e) Herr).
Defined.

Lemma addToast_removeToast_witness :
  let s := UI.addToast "a" "saved" None UI.useUIStore in
  ("b" ∉ UI.ids s)
  ∧ UI.removeToast "b" (UI.addToast "b" "failed" (Some UI.error) s) = s.
Proof.
  intros s.
  assert ("b" ∉ UI.ids s) as Hfresh.
  { unfold s. simpl. intros Hin. apply list_elem_of_singleton in Hin. done. }
  split; [done|]. apply (addToast_removeToast "b" "failed" _ s Hfresh).
Defined.

Example three_pushes_two_ways :
  let pushes := [("a", None); ("b", None); ("c", Some UI.error)] in
  length (UI.timers (Batch.push_batch numeral pushes (UI.mount 0))) = 3
  ∧ length (UI.timers (UI.run numeral (Batch.as_events pushes) (UI.mount 0)))
    = 6.
Proof. by vm_compute. Qed.

Lemma toast_keys_distinct_witness :
  Inj (=) (=) numeral
  ∧ NoDup (ToastView.children
             (UI.store (UI.run numeral
                [UI.Push "a" None; UI.Tick; UI.Push "b" None; UI.Dismiss "0";
                 UI.Push "c" None] (UI.mount 0)))).*1.
Proof.
  assert (Inj (=) (=) numeral) as Hinj by (unfold numeral; apply _).
  split; [done|]. apply (toast_keys_distinct numeral Hinj 0).
Defined.

Lemma dashboard_counters_witness :
  Dashboard.optional "campaigns" (Some dashboard) = Some (JArr campaigns)
  ∧ (JNull ∉ campaigns)
  ∧ ∃ n, Dashboard.activeCampaigns (Some dashboard) = inr n
         ∧ n = length (List.filter (Dashboard.status_is "active") campaigns)
         ∧ n ≤ length campaigns.
Proof.
  assert (Dashboard.optional "campaigns" (Some dashboard)
          = Some (JArr campaigns)) as Hlist by reflexivity.
  assert (JNull ∉ campaigns) as Hnull.
  { unfold campaigns. rewrite !not_elem_of_cons. repeat split; try done.
    apply not_elem_of_nil. }
  split; [done|]. split; [done|].
  apply (proj1 (proj1 (proj2 (proj2 (dashboard_counters (Some dashboard))))
                  campaigns Hlist) Hnull).
Defined.

Example dashboard_counts :
  Dashboard.activeCampaigns (Some dashboard) = inr 2
  ∧ Dashboard.completed (Some dashboard) = inr 1
  ∧ Dashboard.rate (Some dashboard) = inr (Dashboard.Percent 1 2)
  ∧ Dashboard.activeCampaigns None = inr 0
  ∧ Dashboard.activeCampaigns (Some (JObj {[ "campaigns" := JArr [JNull] ]}))
    = inl TypeError.
Proof. by vm_compute. Qed.

Lemma spend_chart_first_eight_witness :
  Dashboard.optional "pacing" (Dashboard.optional "pacing" (Some dashboard))
  = Some (JArr pacing_rows)
  ∧ Forall Page.readable pacing_rows
  ∧ Dashboard.activeCampaigns (Some dashboard) = inr 2
  ∧ Dashboard.rate (Some dashboard) = inr (Dashboard.Percent 1 2)
  ∧ ∃ pts, Page.spend_chart (Some dashboard) = inr pts.
Proof.
  assert (Dashboard.optional "pacing"
            (Dashboard.optional "pacing" (Some dashboard))
          = Some (JArr pacing_rows)) as Hrows by reflexivity.
  assert (Forall Page.readable pacing_rows) as Hnull.
  { unfold pacing_rows. by repeat constructor. }
  assert (Dashboard.activeCampaigns (Some dashboard) = inr 2) as Hac
    by (by vm_compute).
  assert (Dashboard.rate (Some dashboard) = inr (Dashboard.Percent 1 2))
    as Hrate by (by vm_compute).
  split; [done|]. split; [done|]. split; [done|]. split; [done|].
  apply (proj2 (proj2 (proj1 (spend_chart_first_eight (Some dashboard))
                         pacing_rows Hrows)) Hnull _ _ Hac Hrate).
Defined.

Example spend_chart_of_sample :
  Page.spend_chart (Some dashboard)
  = inr [ {| Dashboard.name := JStr "dv360"; Dashboard.value := JNum 120 |};
          {| Dashboard.name := JStr "P2"; Dashboard.value := JNum 0 |};
          {| Dashboard.name := JStr "P3"; Dashboard.value := JNum 7 |} ]
  ∧ Page.spend_chart
      (Some (JObj {[ "pacing" :=
                       JObj {[ "pacing" :=
                                 JArr (replicate 8 (JObj ∅) ++ [JNull]) ]} ]}))
    = inl TypeError
  ∧ Dashboard.chart
      (Some (JObj {[ "pacing" :=
                       JObj {[ "pacing" :=
                                 JArr (replicate 8 (JObj ∅) ++ [JNull]) ]} ]}))
    ≠ inl TypeError.
Proof. vm_compute. by repeat split. Qed.

Lemma rate_guard_witness :
  Dashboard.rate (Some dashboard) = inr (Dashboard.Percent 1 2)
  ∧ 0 < 2 ∧ 1 ≤ 2.
Proof.
  assert (Dashboard.rate (Some dashboard) = inr (Dashboard.Percent 1 2))
    as Hrate by (by vm_compute).
  split; [done|].
  destruct (proj1 (rate_guard (Some dashboard)) 1 2 Hrate) as (Hpos & Hle & _).
  by split.
Defined.
End MoreExamples.

(** ** The request cache *)

Section CacheFacts.
Import RequestCache.

Lemma get_insert k k' e ents ops calls next :
  get k' {| entries := <[k := e]> ents; in_flight := ops;
            loader_calls := calls; next_handle := next |}
  = if decide (k = k') then e
    else get k' {| entries := ents; in_flight := ops;
                   loader_calls := calls; next_handle := next |}.
Proof.
  unfold get. cbn [entries]. destruct (decide (k = k')) as [->|Hne].
  - by rewrite lookup_insert_eq.
  - by rewrite lookup_insert_ne.
Qed.

Lemma get_entries k c c' : entries c = entries c' → get k c = get k c'.
Proof. unfold get. by intros ->. Qed.

Lemma head_operations k c :
  head (operations_of k c) = None ↔ running k c = 0.
Proof. unfold running. by destruct (operations_of k c). Qed.

Lemma length_remove_first k k' ops :
  length (filter (λ o, op_key o = k') (remove_first k ops))
  = if decide (k = k')
    then pred (length (filter (λ o, op_key o = k') ops))
    else length (filter (λ o, op_key o = k') ops).
Proof.
  induction ops as [|o ops IH]; simpl; [by destruct (decide (k = k'))|].
  destruct (decide (op_key o = k)) as [Hk|Hk].
  - destruct (decide (k = k')) as [<-|Hne].
    + by rewrite filter_cons_True.
    + rewrite filter_cons_False; [done|congruence].
  - destruct (decide (op_key o = k')) as [Hk'|Hk'].
    + rewrite !filter_cons_True by done. simpl. rewrite IH.
      destruct (decide (k = k')); [congruence|done].
    + by rewrite !filter_cons_False.
Qed.

(** A fetch for a key that is fetching changes nothing. *)
Lemma fetch_fetching k c :
  status (get k c) = fetching →
  fetch k c = (c, handle <$> head (operations_of k c)).
Proof. intros Hst. unfold fetch. by rewrite Hst. Qed.

(** Any other fetch invokes the loader once and leaves the key fetching. *)
Lemma fetch_starts k c :
  status (get k c) ≠ fetching →
  status (get k (fetch k c).1) = fetching
  ∧ loader_calls (fetch k c).1 = loader_calls c ++ [k]
  ∧ (∀ k', running k' (fetch k c).1
           = running k' c + (if decide (k = k') then 1 else 0))
  ∧ (∀ k', k ≠ k' → get k' (fetch k c).1 = get k' c).
Proof.
  intros Hst. unfold fetch.
  destruct (status (get k c)) eqn:Hs; try done; cbn [fst];
    (split; [rewrite get_insert; by rewrite decide_True|]);
    (split; [done|]);
    (split;
     [ intros k'; unfold running, operations_of; cbn [in_flight];
       rewrite filter_app, length_app;
       destruct (decide (k = k')) as [->|Hne];
       [ by rewrite filter_cons_True
       | rewrite filter_cons_False by (simpl; congruence); simpl; lia ]
     | intros k' Hne; rewrite get_insert, decide_False by done;
       by apply get_entries ]).
Qed.

Lemma consistent_empty : consistent empty.
Proof. intros k. done. Qed.

Lemma consistent_fetch k c : consistent c → consistent (fetch k c).1.
Proof.
  intros Hc. destruct (decide (status (get k c) = fetching)) as [Hst|Hst].
  - by rewrite fetch_fetching.
  - destruct (fetch_starts k c Hst) as (Hnew & _ & Hrun & Hget).
    intros k'. rewrite Hrun. destruct (decide (k = k')) as [<-|Hne].
    + rewrite Hnew. specialize (Hc k).
      destruct (status (get k c)); try done; lia.
    + rewrite Hget by done. rewrite Hc. lia.
Qed.

Lemma consistent_settle k out now c : consistent c → consistent (settle k out now c).
Proof.
  intros Hc. unfold settle.
  destruct (head (operations_of k c)) as [o|] eqn:Hhead; [|done].
  assert (running k c = 1) as Hone.
  { specialize (Hc k). destruct (status (get k c)); try done.
    all: apply head_operations in Hc; congruence. }
  intros k'. unfold running, operations_of. cbn [in_flight].
  rewrite length_remove_first, get_insert.
  destruct (decide (k = k')) as [<-|Hne].
  - fold (operations_of k c). fold (running k c). rewrite Hone.
    by destruct out.
  - rewrite (get_entries k' _ c) by done. exact (Hc k').
Qed.

Lemma consistent_applyDelta k patch c :
  consistent c → consistent (applyDelta k patch c).
Proof.
  intros Hc k'. unfold applyDelta, running, operations_of. cbn [in_flight].
  rewrite get_insert. destruct (decide (k = k')) as [<-|Hne].
  - specialize (Hc k). unfold get in Hc.
    by destruct (entries c !! k).
  - rewrite (get_entries k' _ c) by done. exact (Hc k').
Qed.

Lemma consistent_expire k c : consistent c → consistent (expire k c).
Proof.
  intros Hc. unfold expire.
  destruct (entries c !! k) as [e|] eqn:He; [|done].
  destruct (status e) eqn:Hs; try done.
  intros k'. unfold running, operations_of. cbn [in_flight].
  rewrite get_insert. destruct (decide (k = k')) as [<-|Hne].
  - specialize (Hc k). unfold get in Hc. rewrite He in Hc.
    simpl in Hc. by rewrite Hs in Hc.
  - rewrite (get_entries k' _ c) by done. exact (Hc k').
Qed.

Lemma consistent_step c e : consistent c → consistent (step c e).
Proof.
  destruct e; simpl.
  - apply consistent_fetch.
  - apply consistent_settle.
  - apply consistent_applyDelta.
  - apply consistent_expire.
Qed.

Lemma consistent_run evs c : consistent c → consistent (run evs c).
Proof.
  unfold run. revert c.
  induction evs as [|e evs IH]; intros c Hc; simpl; [done|].
  by apply IH, consistent_step.
Qed.

(** Callers that find the key fetching leave the cache as it is. *)
Lemma fetch_again n k c :
  status (get k c) = fetching → run (replicate n (Fetch k)) c = c.
Proof.
  intros Hst. induction n as [|n IH]; [done|].
  cbn [replicate]. unfold run in *. simpl. by rewrite fetch_fetching.
Qed.

(** C2.  On the request cache of the spec, after any sequence of fetches,
    completions, deltas and expiries, in any interleaving: no key has more
    than one loader invocation in flight; a fetch for a key whose entry is
    fetching returns the handle of the one operation in flight and leaves
    the cache unchanged, the loader is not invoked; a fetch for any other
    key invokes the loader once; and however many callers fetch the key one
    after the other, the loader is invoked at most once. *)
Theorem at_most_one_in_flight (evs : list Event) (k : string) :
  let c := run evs empty in
  running k c ≤ 1
  ∧ (status (get k c) = fetching →
       ∃ o, operations_of k c = [o] ∧ fetch k c = (c, Some (handle o)))
  ∧ (status (get k c) ≠ fetching →
       running k c = 0
       ∧ running k (fetch k c).1 = 1
       ∧ loader_calls (fetch k c).1 = loader_calls c ++ [k])
  ∧ (∀ n,
       loader_calls (run (replicate (S n) (Fetch k)) c)
       = loader_calls c
         ++ match status (get k c) with fetching => [] | _ => [k] end
       ∧ running k (run (replicate (S n) (Fetch k)) c) = 1).
Proof.
  intros c.
  assert (consistent c) as Hc by apply consistent_run, consistent_empty.
  pose proof (Hc k) as Hk.
  split; [destruct (status (get k c)); lia|]. split; [|split].
  - intros Hst. rewrite Hst in Hk. unfold running in Hk.
    destruct (operations_of k c) as [|o [|o' ops]] eqn:Hops; try done.
    exists o. split; [done|]. by rewrite fetch_fetching, Hops.
  - intros Hst. destruct (fetch_starts k c Hst) as (_ & Hcalls & Hrun & _).
    assert (running k c = 0) as Hzero
      by (destruct (status (get k c)); done).
    split; [done|]. split; [|done].
    rewrite Hrun, Hzero, decide_True by done. done.
  - intros n. cbn [replicate].
    change (run (Fetch k :: replicate n (Fetch k)) c)
      with (run (replicate n (Fetch k)) (fetch k c).1).
    destruct (decide (status (get k c) = fetching)) as [Hst|Hst].
    + rewrite fetch_fetching by done. cbn [fst].
      rewrite fetch_again by done. rewrite Hst, app_nil_r.
      split; [done|]. by rewrite Hk, Hst.
    + destruct (fetch_starts k c Hst) as (Hnew & Hcalls & Hrun & _).
      rewrite fetch_again by done. rewrite Hcalls. split.
      * by destruct (status (get k c)).
      * rewrite Hrun, decide_True by done.
        destruct (status (get k c)); try done; lia.
Qed.
(** *** Stale while error *)

Lemma run_append evs evs' c : run (evs ++ evs') c = run evs' (run evs c).
Proof. unfold run. apply foldl_app. Qed.

(** After a fetch the key is fetching, whoever started the operation. *)
Lemma fetch_leaves_fetching k c :
  status (get k (fetch k c).1) = fetching
  ∧ value (get k (fetch k c).1) = value (get k c).
Proof.
  destruct (decide (status (get k c) = fetching)) as [Hst|Hst].
  - by rewrite fetch_fetching.
  - unfold fetch. destruct (status (get k c)) eqn:Hs; try done; cbn [fst];
      by rewrite get_insert, decide_True.
Qed.

(** The completion of an operation in flight writes the entry. *)
Lemma settle_fetching k out now c :
  consistent c → status (get k c) = fetching →
  get k (settle k out now c)
  = match out with
    | Loaded v =>
        {| value := Some v; status := fresh; lastFetchedAt := Some now;
           failure := None |}
    | Failed detail =>
        {| value := value (get k c); status := error;
           lastFetchedAt := lastFetchedAt (get k c);
           failure := Some detail |}
    end.
Proof.
  intros Hc Hst. specialize (Hc k). rewrite Hst in Hc. unfold settle.
  destruct (head (operations_of k c)) eqn:Hhead.
  - by rewrite get_insert, decide_True.
  - apply head_operations in Hhead. congruence.
Qed.

Lemma value_step k c e :
  overwrites k e = false → value (get k (step c e)) = value (get k c).
Proof.
  intros Hno. destruct e as [k'|k' out now|k' patch|k']; simpl in *.
  - destruct (decide (k' = k)) as [->|Hne];
      [apply fetch_leaves_fetching|].
    destruct (decide (status (get k' c) = fetching)) as [Hst|Hst].
    + by rewrite fetch_fetching.
    + destruct (fetch_starts k' c Hst) as (_ & _ & _ & Hget).
      by rewrite Hget.
  - unfold settle. destruct (head (operations_of k' c)); [|done].
    rewrite get_insert. destruct (decide (k' = k)) as [->|Hne].
    + destruct out; [|done]. by rewrite bool_decide_eq_false in Hno.
    + by erewrite get_entries.
  - apply bool_decide_eq_false in Hno. unfold applyDelta.
    rewrite get_insert, decide_False by done. by erewrite get_entries.
  - unfold expire. destruct (entries c !! k') as [e|] eqn:He; [|done].
    destruct (status e); try done.
    rewrite get_insert. destruct (decide (k' = k)) as [->|Hne].
    + unfold get. by rewrite He.
    + by erewrite get_entries.
Qed.

Lemma value_run k evs c :
  forallb (λ e, negb (overwrites k e)) evs = true →
  value (get k (run evs c)) = value (get k c).
Proof.
  unfold run. revert c. induction evs as [|e evs IH]; intros c Hno; [done|].
  simpl in Hno. apply andb_true_iff in Hno as [He Hno].
  apply negb_true_iff in He. simpl. rewrite IH by done. by apply value_step.
Qed.

(** C4.  On the request cache of the spec: once a fetch of a key has
    completed with a value, and whatever happens next short of a delta for
    the key or another successful completion, a fetch of the key whose
    loader fails leaves the value as it was, sets the status to [error] and
    records the failure; so a failed fetch while the value is {a:1} leaves
    {a:1} with [status = error]. *)
Theorem failed_fetch_keeps_value (evs between : list Event) (k : string)
    (v : JSON) (t now : nat) (detail : string) :
  forallb (λ e, negb (overwrites k e)) between = true →
  let c1 := run (evs ++ [Fetch k; Settle k (Loaded v) t]) empty in
  let c2 := run (between ++ [Fetch k; Settle k (Failed detail) now]) c1 in
  (value (get k c1) = Some v ∧ status (get k c1) = fresh)
  ∧ value (get k c2) = Some v
  ∧ status (get k c2) = error
  ∧ failure (get k c2) = Some detail.
Proof.
  intros Hno c1 c2.
  assert (∀ c out when, consistent c →
            get k (run [Fetch k; Settle k out when] c)
            = match out with
              | Loaded w =>
                  {| value := Some w; status := fresh;
                     lastFetchedAt := Some when; failure := None |}
              | Failed d =>
                  {| value := value (get k c); status := error;
                     lastFetchedAt := lastFetchedAt (get k (fetch k c).1);
                     failure := Some d |}
              end) as Hround.
  { intros c out when Hc. unfold run. simpl.
    destruct (fetch_leaves_fetching k c) as [Hst Hval].
    rewrite settle_fetching; [|by apply consistent_fetch|done].
    destruct out; [done|]. by rewrite Hval. }
  assert (get k c1 = {| value := Some v; status := fresh;
                        lastFetchedAt := Some t; failure := None |}) as H1.
  { unfold c1. rewrite run_append.
    apply (Hround _ (Loaded v)), consistent_run, consistent_empty. }
  assert (consistent c1) as Hc1 by apply consistent_run, consistent_empty.
  split; [by rewrite H1|].
  unfold c2. rewrite run_append, (Hround _ (Failed detail));
    [|by apply consistent_run].
  cbn [value status failure]. rewrite value_run by done.
  by rewrite H1.
Qed.
End CacheFacts.

(** ** Worked examples of the request cache and of the page body *)

Section CacheExamples.
Import RequestCache.

Lemma at_most_one_in_flight_witness :
  let evs := [ Fetch "dashboard";
               Delta "dashboard" {[ "alerts" := JNum 2 ]};
               Fetch "campaigns";
               Fetch "dashboard";
               Settle "campaigns" (Failed "503") 10;
               Fetch "dashboard" ] in
  let c := run evs empty in
  status (get "dashboard" c) = fetching
  ∧ loader_calls c = ["dashboard"; "campaigns"]
  ∧ ∃ o, operations_of "dashboard" c = [o]
         ∧ fetch "dashboard" c = (c, Some (handle o)).
Proof.
  intros evs c.
  assert (status (get "dashboard" c) = fetching) as Hst by (by vm_compute).
  split; [done|]. split; [by vm_compute|].
  apply (proj1 (proj2 (at_most_one_in_flight evs "dashboard")) Hst).
Defined.

Lemma failed_fetch_keeps_value_witness :
  let between := [ Expire "dashboard"; Fetch "campaigns";
                   Delta "campaigns" {[ "b" := JNum 2 ]} ] in
  let c1 := run ([Fetch "campaigns"]
                 ++ [Fetch "dashboard";
                     Settle "dashboard" (Loaded (JObj {[ "a" := JNum 1 ]})) 5])
              empty in
  let c2 := run (between
                 ++ [Fetch "dashboard";
                     Settle "dashboard" (Failed "503 maintenance") 40]) c1 in
  forallb (λ e, negb (overwrites "dashboard" e)) between = true
  ∧ value (get "dashboard" c2) = Some (JObj {[ "a" := JNum 1 ]})
  ∧ status (get "dashboard" c2) = error
  ∧ failure (get "dashboard" c2) = Some "503 maintenance".
Proof.
  intros between c1 c2.
  assert (forallb (λ e, negb (overwrites "dashboard" e)) between = true)
    as Hno by (by vm_compute).
  split; [done|].
  apply (proj2 (failed_fetch_keeps_value [Fetch "campaigns"] between
                  "dashboard" (JObj {[ "a" := JNum 1 ]}) 5 40
                  "503 maintenance" Hno)).
Defined.

(** A row whose [spent] cannot be added ends the render as well. *)
Example spend_chart_unreadable_row :
  Page.spend_chart
    (Some (JObj {[ "pacing" :=
                     JObj {[ "pacing" :=
                               JArr [JObj {[ "spent" :=
                                               JObj {[ "toString" := JNum 1 ]}
                                           ]}] ]} ]}))
  = inl JS.TypeError.
Proof. by vm_compute. Qed.
End CacheExamples.
